(** * ai-rag-analyzer: the backend of [src/backend/main.py]

    A shallow embedding of the FastAPI backend: the PDF text extractor, the
    chunker, the upload (ingest) handler and the prompt assembly of the chat
    handler, with the properties of the specification stated over them.

    Python values are modelled as follows.
    - [str] is a sequence of Unicode code points: [list N].
    - [bytes] is [list byte].
    - An exception is a value of [exn]; code that can raise returns a
      [result].
    - The file system is a finite map from paths to contents; the handlers
      thread a [World] through their steps and record each I/O action in a
      trace. *)

From Stdlib Require Import String Ascii Strings.Byte ZArith NArith Lia List DecimalString.
From stdpp Require Import base option list gmap.
Import ListNotations.

Local Open Scope Z_scope.

(** ** Python strings *)

Abbreviation text := (list N).

(** A string literal of the source, as code points. *)
Definition py (s : string) : text := map N_of_ascii (list_ascii_of_string s).

Definition len (s : text) : Z := Z.of_nat (length s).

(** [str.isspace] on one code point: the characters [str.strip()] removes. *)
Definition py_isspace (c : N) : bool :=
  (((9 <=? c) && (c <=? 13)) || ((28 <=? c) && (c <=? 32))
   || (c =? 133) || (c =? 160) || (c =? 5760)
   || ((8192 <=? c) && (c <=? 8202))
   || (c =? 8232) || (c =? 8233) || (c =? 8239) || (c =? 8287)
   || (c =? 12288))%N.

Fixpoint lstrip (s : text) : text :=
  match s with
  | c :: s' => if py_isspace c then lstrip s' else s
  | [] => []
  end.

Definition rstrip (s : text) : text := rev (lstrip (rev s)).

(** [s.strip()] *)
Definition strip (s : text) : text := rstrip (lstrip s).

(** [t.startswith(p)] *)
Fixpoint startswith (t p : text) : bool :=
  match p, t with
  | [], _ => true
  | _ :: _, [] => false
  | a :: p', b :: t' => (a =? b)%N && startswith t' p'
  end.

(** [t.endswith(p)] *)
Definition endswith (t p : text) : bool := startswith (rev t) (rev p).

(** [sep.join(parts)] *)
Fixpoint join (sep : text) (parts : list text) : text :=
  match parts with
  | [] => []
  | [p] => p
  | p :: rest => p ++ sep ++ join sep rest
  end.

(** [re.search(re.escape(p), t)] is not [None]: [p] occurs in [t]. *)
Fixpoint contains (t p : text) : bool :=
  startswith t p ||
  match t with
  | [] => false
  | _ :: t' => contains t' p
  end.

(** ** Exceptions *)

(** A raised Python exception, with the text [str(e)] gives. *)
Inductive exn := Exception (msg : text).

Definition str_exn (e : exn) : text := let 'Exception m := e in m.

Inductive result (A : Type) :=
| Ok (a : A)
| Raise (e : exn).
Arguments Ok {A} a.
Arguments Raise {A} e.

#[global] Instance result_ret : MRet result := fun A a => Ok a.
#[global] Instance result_bind : MBind result := fun A B f m =>
  match m with
  | Ok a => f a
  | Raise e => Raise e
  end.

(** ** The text splitter

    [chunk_text] builds [RecursiveCharacterTextSplitter(chunk_size=1000,
    chunk_overlap=200, length_function=len)] and calls [create_documents].
    The definitions of this module follow the methods of that class of
    [langchain_text_splitters] that the call runs, under the defaults the
    constructor leaves in place: the separators are a blank line, a newline,
    a space and the empty string, in that order;
    [keep_separator = True], [is_separator_regex = False],
    [strip_whitespace = True], [add_start_index = False]. *)

Module Splitter.

Record config := {
  chunk_size : Z;
  chunk_overlap : Z;
  separators : list text
}.

(** [re.split("(" + re.escape(sep) + ")", t)] for a non-empty [sep]: the
    text before the first occurrence, then for each occurrence, scanning
    left to right without overlaps, the separator and the text after it.
    [skip] counts the characters of a matched separator still to pass;
    [cur] is the current piece, reversed. *)
Fixpoint re_split_go (sep t : text) (skip : nat) (cur : text)
  : text * list (text * text) :=
  match t with
  | [] => (rev cur, [])
  | c :: t' =>
      match skip with
      | S k => re_split_go sep t' k cur
      | O =>
          if startswith t sep then
            let '(piece, more) := re_split_go sep t' (length sep - 1) [] in
            (rev cur, (sep, piece) :: more)
          else re_split_go sep t' O (c :: cur)
      end
  end.

Definition re_split (sep t : text) : text * list (text * text) :=
  re_split_go sep t O [].

(** [_split_text_with_regex(text, separator, keep_separator=True)]: each
    separator is glued to the front of the piece that follows it; empty
    pieces are dropped. With the empty separator the text is cut into its
    characters. *)
Definition _split_text_with_regex (t separator : text) : list text :=
  let splits :=
    match separator with
    | [] => map (fun c => [c]) t
    | _ :: _ =>
        let '(first, more) := re_split separator t in
        first :: map (fun sp => fst sp ++ snd sp) more
    end in
  filter (fun s => s ≠ []) splits.

(** [_join_docs]: [None] when the stripped text is empty. *)
Definition _join_docs (docs : list text) (separator : text) : option text :=
  let t := strip (join separator docs) in
  match t with
  | [] => None
  | _ => Some t
  end.

(** [separator_len if b else 0] *)
Definition sep_if (b : bool) (separator_len : Z) : Z :=
  if b then separator_len else 0.

Section Merge.
Variable cfg : config.
Variable separator : text.

Let separator_len := len separator.

(** The guard of the inner [while] of [_merge_splits]. *)
Definition keep_popping (current_doc : list text) (total _len : Z) : bool :=
  (total >? chunk_overlap cfg) ||
  ((total + _len + sep_if (0 <? length current_doc)%nat separator_len
      >? chunk_size cfg) && (total >? 0)).

(** The inner [while]: drop splits from the front of [current_doc].
    [current_doc[0]] on an empty list raises [IndexError]. *)
Fixpoint pop_front (current_doc : list text) (total _len : Z)
  : result (list text * Z) :=
  if keep_popping current_doc total _len then
    match current_doc with
    | [] => Raise (Exception (py "list index out of range"))
    | d0 :: rest =>
        pop_front rest
          (total - (len d0 + sep_if (1 <? length current_doc)%nat separator_len))
          _len
    end
  else Ok (current_doc, total).

(** The [for d in splits] loop of [_merge_splits] and the code after
    it, on the loop's state [(docs, current_doc, total)]. *)
Fixpoint merge_loop (splits docs current_doc : list text) (total : Z)
  : result (list text) :=
  match splits with
  | [] => Ok (docs ++ option_list (_join_docs current_doc separator))
  | d :: splits' =>
      let _len := len d in
      '(docs, current_doc, total) ←
        (if total + _len + sep_if (0 <? length current_doc)%nat separator_len
              >? chunk_size cfg
         then
           if (0 <? length current_doc)%nat then
             let docs := docs ++ option_list (_join_docs current_doc separator) in
             '(current_doc, total) ← pop_front current_doc total _len;
             Ok (docs, current_doc, total)
           else Ok (docs, current_doc, total)
         else Ok (docs, current_doc, total));
      let current_doc := current_doc ++ [d] in
      merge_loop splits' docs current_doc
        (total + (_len + sep_if (1 <? length current_doc)%nat separator_len))
  end.

(** [_merge_splits(splits, separator)] *)
Definition _merge_splits (splits : list text) : result (list text) :=
  merge_loop splits [] [] 0.
End Merge.

Section Split.
Variable cfg : config.

(** [final_chunks.extend(self._merge_splits(_good_splits, _separator))], guarded
    by [if _good_splits:]. The separator handed to [_merge_splits] is
    the empty string because [keep_separator] is set. *)
Definition flush (final_chunks _good_splits : list text) : result (list text) :=
  match _good_splits with
  | [] => Ok final_chunks
  | _ :: _ =>
      merged_text ← _merge_splits cfg [] _good_splits;
      Ok (final_chunks ++ merged_text)
  end.

(** The [for s in splits] loop of [_split_text] and the code after it.
    [recur] is [self._split_text(_, new_separators)], or [None] when
    [new_separators] is empty. *)
Fixpoint split_loop (recur : option (text → result (list text)))
    (splits final_chunks _good_splits : list text) : result (list text) :=
  match splits with
  | [] => flush final_chunks _good_splits
  | s :: splits' =>
      if len s <? chunk_size cfg then
        split_loop recur splits' final_chunks (_good_splits ++ [s])
      else
        final_chunks ← flush final_chunks _good_splits;
        match recur with
        | None => split_loop recur splits' (final_chunks ++ [s]) []
        | Some f =>
            other_info ← f s;
            split_loop recur splits' (final_chunks ++ other_info) []
        end
  end.

(** [_split_text(text, separators)]. The first loop of the method picks
    the first separator that is empty or occurs in the text, and keeps
    the separators after it as [new_separators]; when none qualifies the
    last separator is used with no [new_separators]. Here that loop is
    fused with the recursion on [separators]: skipping a separator that
    does not occur leaves the last separator, hence the default, the
    same ([_split_text_pick] below states the method's own form). *)
Fixpoint _split_text (separators : list text) (t : text) {struct separators}
  : result (list text) :=
  match separators with
  | [] => Raise (Exception (py "list index out of range"))
  | _s :: rest =>
      let recur :=
        match rest with
        | [] => None
        | _ :: _ => Some (_split_text rest)
        end in
      match _s with
      | [] => split_loop None (_split_text_with_regex t []) [] []
      | _ :: _ =>
          if contains t _s then
            split_loop recur (_split_text_with_regex t _s) [] []
          else
            match rest with
            | [] => split_loop None (_split_text_with_regex t _s) [] []
            | _ :: _ => _split_text rest t
            end
      end
  end.

(** The separator loop of [_split_text] as the method writes it. *)
Fixpoint pick_separator (default : text) (separators : list text) (t : text)
  : text * list text :=
  match separators with
  | [] => (default, [])
  | _s :: rest =>
      match _s with
      | [] => (_s, [])
      | _ :: _ =>
          if contains t _s then (_s, rest)
          else pick_separator default rest t
      end
  end.

(** [split_text(text)] *)
Definition split_text (t : text) : result (list text) :=
  _split_text (separators cfg) t.
End Split.

End Splitter.

(** ** Documents and the chunker *)

Record Document := {
  page_content : text;
  metadata : list (text * text)
}.

(** [TextSplitter.create_documents(texts)] without metadata and without
    start indices: one [Document] per chunk, in order. *)
Fixpoint create_documents (cfg : Splitter.config) (texts : list text)
  : result (list Document) :=
  match texts with
  | [] => Ok []
  | t :: texts' =>
      chunks ← Splitter.split_text cfg t;
      more ← create_documents cfg texts';
      Ok (map (fun chunk => {| page_content := chunk; metadata := [] |}) chunks
            ++ more)
  end.

Definition NL : N := 10.
Definition SP : N := 32.

Definition splitter_config : Splitter.config :=
  {| Splitter.chunk_size := 1000;
     Splitter.chunk_overlap := 200;
     Splitter.separators := [[NL; NL]; [NL]; [SP]; []] |}.

(** [chunk_text(raw_text)] *)
Definition chunk_text (raw_text : text) : result (list Document) :=
  create_documents splitter_config [raw_text].

(** [format_docs(docs)] *)
Definition format_docs (docs : list Document) : text :=
  join [NL; NL] (map page_content docs).

(** ** The world of a request

    The handlers act on the local file system, on the uploaded stream and
    on external services. The services, and the ways the operating system
    can fail, are not in the source: [Env] gives their outcomes. *)

Inductive event :=
| EvOpenWrite (path : text)                 (* open(filepath, "wb") *)
| EvCopy (path : text) (data : list byte)   (* copyfileobj: stream read, bytes written *)
| EvClose                                   (* file.file.close() *)
| EvOpenRead (path : text)                  (* open(filepath, "rb") *)
| EvPrint (line : text)                     (* print(...) *)
| EvFromDocuments (docs : list Document)    (* PineconeVectorStore.from_documents *)
| EvRetrieve (question : text)              (* the retrieval step: store handle, retriever, query *)
| EvLLM (prompt : text).                    (* the language model *)

Record World := {
  fs : gmap text (list byte);   (* the files on disk, by the path string they are opened with *)
  upload_closed : bool;         (* file.file has been closed *)
  trace : list event            (* the I/O performed, oldest first *)
}.

Definition emit (e : event) (w : World) : World :=
  {| fs := fs w; upload_closed := upload_closed w; trace := trace w ++ [e] |}.

Definition write_file (path : text) (data : list byte) (w : World) : World :=
  {| fs := <[path := data]> (fs w);
     upload_closed := upload_closed w;
     trace := trace w |}.

Definition close_upload (w : World) : World :=
  emit EvClose
    {| fs := fs w; upload_closed := true; trace := trace w |}.

Record Env := {
  (** [open(path, "wb")] raises this, if anything. *)
  open_wb : text → option exn;
  (** [shutil.copyfileobj] raises the exception after writing that many
      bytes, if it fails. *)
  copyfileobj_fault : list byte → option (nat * exn);
  (** The [OSError] of [open(path, "rb")] on a path that is not there. *)
  open_rb_error : text → exn;
  (** [PyPDF2.PdfReader(file).pages]: the reader may raise; each page's
      [extract_text()] returns a string or [None], or raises. *)
  pdf_pages : list byte → result (list (result (option text)));
  (** [PineconeVectorStore.from_documents(chunks, embeddings, ...)] *)
  from_documents : list Document → result ();
  (** The retrieval step as the handler sees it: building the vector
      store handle and the retriever ([k = 3]) and querying it with the
      question; whichever of them fails, the step raises. *)
  retrieve : text → result (list Document);
  (** [llm | StrOutputParser()] *)
  llm : text → result text
}.

(** ** Text extractor *)

(** Truth value of what [extract_text()] returned: [None] and the empty
    string are false. *)
Definition truthy (extracted : option text) : bool :=
  match extracted with
  | Some (_ :: _) => true
  | _ => false
  end.

(** The [for page in reader.pages] loop, on [text_content]. *)
Fixpoint read_pages (pages : list (result (option text))) (text_content : text)
  : result text :=
  match pages with
  | [] => Ok text_content
  | page :: pages' =>
      extracted ← page;
      read_pages pages'
        (if truthy extracted
         then text_content ++ (default [] extracted ++ [NL])
         else text_content)
  end.

(** [except Exception as e: raise Exception(prefix + str(e))] *)
Definition rewrap {A} (prefix : text) (r : result A) : result A :=
  match r with
  | Ok a => Ok a
  | Raise e => Raise (Exception (prefix ++ str_exn e))
  end.

(** [extract_text_from_pdf(filepath)] *)
Definition extract_text_from_pdf (env : Env) (w : World) (filepath : text)
  : World * result text :=
  let w := emit (EvOpenRead filepath) w in
  (w,
   rewrap (py "Failed to read PDF text: ")
     (match fs w !! filepath with
      | None => Raise (open_rb_error env filepath)
      | Some data =>
          pages ← pdf_pages env data;
          read_pages pages []
      end)).

(** ** Upload handler *)

Record UploadFile := {
  filename : text;
  file : list byte   (* the bytes the stream [file.file] yields *)
}.

Record upload_body := {
  message : text;
  body_filename : text;
  total_chunks : Z
}.

(** What a handler gives back to FastAPI: the returned body, or the
    [HTTPException] it raised. *)
Inductive http (A : Type) :=
| Return (body : A)
| HTTPException (status_code : Z) (detail : text).
Arguments Return {A} body.
Arguments HTTPException {A} status_code detail.

Definition UPLOAD_FOLDER : text := py "temp_uploads".

(** [os.path.join(a, b)] of [posixpath]. *)
Definition path_join (a b : text) : text :=
  if startswith b (py "/") then b
  else if bool_decide (a = []) || endswith a (py "/") then a ++ b
  else a ++ py "/" ++ b.

(** Decimal rendering of an [int] in an f-string. *)
Definition str_int (n : Z) : text :=
  py (NilZero.string_of_int (Z.to_int n)).

(** The first [try] of [upload_file], up to (not including) [finally]:
    the new world, and the exception if one was raised. *)
Definition save_upload (env : Env) (w : World) (filepath : text) (data : list byte)
  : World * option exn :=
  let w := emit (EvOpenWrite filepath) w in
  match open_wb env filepath with
  | Some e => (w, Some e)
  | None =>
      match copyfileobj_fault env data with
      | Some (n, e) =>
          let written := take n data in
          (emit (EvCopy filepath written) (write_file filepath written w), Some e)
      | None => (emit (EvCopy filepath data) (write_file filepath data w), None)
      end
  end.

(** The second [try] of [upload_file]: extraction, chunking, the log
    lines and the write to the vector store. *)
Definition process_upload (env : Env) (w : World) (filepath : text)
  : World * result (list Document) :=
  let '(w, raw_text) := extract_text_from_pdf env w filepath in
  match raw_text ≫= chunk_text with
  | Raise e => (w, Raise e)
  | Ok document_chunks =>
      let w := emit (EvPrint (py "INFO: Created "
                                ++ str_int (Z.of_nat (length document_chunks))
                                ++ py " total chunks. Generating vectors...")) w in
      let w := emit (EvFromDocuments document_chunks) w in
      match from_documents env document_chunks with
      | Raise e => (w, Raise e)
      | Ok _ =>
          (emit (EvPrint (py "INFO: Vectors successfully uploaded to Pinecone!")) w,
           Ok document_chunks)
      end
  end.

(** [upload_file(file)] *)
Definition upload_file (env : Env) (w : World) (upload : UploadFile)
  : World * http upload_body :=
  if negb (endswith (filename upload) (py ".pdf")) then
    (w, HTTPException 400 (py "Invalid file type. Only PDFs are allowed."))
  else
    let filepath := path_join UPLOAD_FOLDER (filename upload) in
    let '(w, saved) := save_upload env w filepath (file upload) in
    let w := close_upload w in
    match saved with
    | Some e => (w, HTTPException 500 (py "Could not save file: " ++ str_exn e))
    | None =>
        let '(w, processed) := process_upload env w filepath in
        match processed with
        | Raise e => (w, HTTPException 500 (str_exn e))
        | Ok document_chunks =>
            (w, Return {| message := py "File successfully uploaded and processed.";
                          body_filename := filename upload;
                          total_chunks := Z.of_nat (length document_chunks) |})
        end
    end.

(** ** Chat handler *)

Definition LBRACE : N := 123.
Definition RBRACE : N := 125.

Fixpoint lookup_var (vars : list (text * text)) (name : text) : option text :=
  match vars with
  | [] => None
  | (k, v) :: vars' => if bool_decide (k = name) then Some v else lookup_var vars' name
  end.

(** [template.format] with keyword arguments [vars], for a template whose only braces are
    replacement fields [{name}], as the template below: each field is
    replaced by the value of its variable, every other character is
    copied. [field] holds the name being read, reversed, inside braces.
    (Doubled braces, conversions and format specifications are not
    modelled; the template has none.) *)
Fixpoint format_go (tpl : text) (field : option text) (vars : list (text * text))
  : result text :=
  match tpl with
  | [] =>
      match field with
      | None => Ok []
      | Some _ => Raise (Exception (py "expected '}' before end of string"))
      end
  | c :: tpl' =>
      match field with
      | None =>
          if (c =? LBRACE)%N then format_go tpl' (Some []) vars
          else if (c =? RBRACE)%N then
            Raise (Exception (py "Single '}' encountered in format string"))
          else rest ← format_go tpl' None vars; Ok (c :: rest)
      | Some name =>
          if (c =? RBRACE)%N then
            match lookup_var vars (rev name) with
            | None => Raise (Exception (rev name))
            | Some v => rest ← format_go tpl' None vars; Ok (v ++ rest)
            end
          else format_go tpl' (Some (c :: name)) vars
      end
  end.

Definition format (tpl : text) (vars : list (text * text)) : result text :=
  format_go tpl None vars.

(** The [template] literal of [chat_with_document], line by line. *)
Definition template : text :=
  py "Use the following pieces of retrieved context to answer the question. " ++ [NL] ++
  py "        If you don't know the answer, just say that you don't know. " ++ [NL] ++
  py "        Keep the answer concise and professional." ++ [NL] ++
  py "        " ++ [NL] ++
  py "        Context: {context}" ++ [NL] ++
  py "        " ++ [NL] ++
  py "        Question: {question}" ++ [NL] ++
  py "        " ++ [NL] ++
  py "        Answer:".

(** The [prompt] step of [rag_chain] on the dictionary the first step
    builds. *)
Definition prompt (context question : text) : result text :=
  format template [(py "context", context); (py "question", question)].

(** [rag_chain.invoke(question)] *)
Definition rag_chain (env : Env) (w : World) (question : text)
  : World * result text :=
  let w := emit (EvRetrieve question) w in
  match retrieve env question with
  | Raise e => (w, Raise e)
  | Ok docs =>
      match prompt (format_docs docs) question with
      | Raise e => (w, Raise e)
      | Ok p => (emit (EvLLM p) w, llm env p)
      end
  end.

(** [chat_with_document(request)], on [request.question] *)
Definition chat_with_document (env : Env) (w : World) (question : text)
  : World * http text :=
  let '(w, answer) := rag_chain env w question in
  match answer with
  | Ok answer => (w, Return answer)
  | Raise e =>
      (emit (EvPrint (py "CRITICAL ERROR: " ++ str_exn e)) w,
       HTTPException 500 (str_exn e))
  end.

(** ** Statements of the specification that need their own vocabulary *)

(** Concatenating chunks while dropping the first [overlap] characters of
    every chunk after the first. *)
Definition reconstruct (overlap : nat) (chunks : list text) : text :=
  match chunks with
  | [] => []
  | c :: rest => c ++ concat (map (drop overlap) rest)
  end.

(** Two consecutive chunks share [overlap] characters: the last [overlap]
    characters of the first are the first [overlap] characters of the
    second. *)
Definition shares_overlap (overlap : nat) (a b : text) : Prop :=
  (overlap ≤ length a)%nat ∧ (overlap ≤ length b)%nat ∧
  drop (length a - overlap) a = take overlap b.

Definition adjacent_overlap (overlap : nat) (chunks : list text) : Prop :=
  ∀ (i : nat) (a b : text),
    chunks !! i = Some a → chunks !! S i = Some b → shares_overlap overlap a b.

(** The sliding windows of a text: windows of [size] characters, each
    starting [size - overlap] characters after the previous one, the last
    one holding what is left. *)
Fixpoint windows_fuel (fuel size overlap : nat) (t : text) : list text :=
  match fuel with
  | O => []
  | S fuel' =>
      match t with
      | [] => []
      | _ :: _ =>
          if (length t <=? size)%nat then [t]
          else take size t :: windows_fuel fuel' size overlap (drop (size - overlap) t)
      end
  end.

Definition windows (size overlap : nat) (t : text) : list text :=
  windows_fuel (length t) size overlap t.

(** [c] is the character [l] of the extension, or its upper-case form. *)
Definition case_variant (c l : N) : Prop :=
  c = l ∨ ((97 ≤ l)%N ∧ (l ≤ 122)%N ∧ c = (l - 32)%N).

(** What a page contributes to the extracted text. *)
Definition page_text (extracted : option text) : text :=
  match extracted with
  | Some (c :: t) => (c :: t) ++ [NL]
  | _ => []
  end.

(** The statement of the specification: once the bytes are saved, the
    handler leaves no file at the temporary path. *)
Definition temp_file_removed : Prop :=
  ∀ (env : Env) (w : World) (upload : UploadFile),
    let filepath := path_join UPLOAD_FOLDER (filename upload) in
    endswith (filename upload) (py ".pdf") = true →
    (save_upload env w filepath (file upload)).2 = None →
    fs (upload_file env w upload).1 !! filepath = None.


(** The prompt as the specification describes it: the fixed text of the
    template with the context and the question in the two places. *)
Definition prompt_text (context question : text) : text :=
  py "Use the following pieces of retrieved context to answer the question. " ++ [NL] ++
  py "        If you don't know the answer, just say that you don't know. " ++ [NL] ++
  py "        Keep the answer concise and professional." ++ [NL] ++
  py "        " ++ [NL] ++
  py "        Context: " ++ context ++ [NL] ++
  py "        " ++ [NL] ++
  py "        Question: " ++ question ++ [NL] ++
  py "        " ++ [NL] ++
  py "        Answer:".

(** [list(text)] *)
Definition chars (t : text) : list text := map (λ c, [c]) t.

(** No character of the text is whitespace. *)
Definition clean (t : text) : Prop := Forall (λ c, py_isspace c = false) t.

(** The [Document] that [create_documents] makes of a chunk. *)
Definition doc (chunk : text) : Document :=
  {| page_content := chunk; metadata := [] |}.

(** [c] occurs in [t] as a contiguous run of characters. *)
Definition substring (c t : text) : Prop := ∃ a b, t = a ++ c ++ b.

(** The first character of a text, if any, is not whitespace. *)
Definition head_ok (s : text) : Prop :=
  match s with
  | [] => True
  | c :: _ => py_isspace c = false
  end.

(** What [_merge_splits] can emit from the splits [all]: the stripped
    concatenation of a run of consecutive splits that fits the chunk
    size, when it is not empty. *)
Definition segment_chunk (size : Z) (all : list text) (c : text) : Prop :=
  c ≠ [] ∧
  ∃ a seg b, all = a ++ seg ++ b ∧ len (concat seg) ≤ size ∧ c = strip (concat seg).

(** A chunk of the text [t]: not empty, no whitespace at either end, at
    most [size] characters, and a contiguous piece of [t]. *)
Definition text_chunk (size : Z) (t c : text) : Prop :=
  c ≠ [] ∧ strip c = c ∧ len c ≤ size ∧ substring c t.

(** The chunk [c] occurs in the text [t] at a place that takes in
    position [i]. *)
Definition covers_at (t : text) (i : nat) (c : text) : Prop :=
  ∃ a b, t = a ++ c ++ b ∧ (length a ≤ i < length a + length c)%nat.

(** ** Concrete inputs *)

(** An environment in which nothing fails and every PDF has the given
    pages. *)
Definition quiet_env (pages : list (option text)) : Env :=
  {| open_wb := λ _, None;
     copyfileobj_fault := λ _, None;
     open_rb_error := λ _, Exception (py "[Errno 2] No such file or directory");
     pdf_pages := λ _, Ok (map Ok pages);
     from_documents := λ _, Ok ();
     retrieve := λ _, Ok [];
     llm := λ _, Ok (py "I don't know.") |}.

(** Nothing on disk, the stream open, no I/O yet. *)
Definition empty_world : World :=
  {| fs := ∅; upload_closed := false; trace := [] |}.

(** The bytes of [%PDF]. *)
Definition pdf_magic : list byte := [x25; x50; x44; x46].

Definition report_pdf : UploadFile :=
  {| filename := py "report.pdf"; file := pdf_magic |}.

Definition notes_txt : UploadFile :=
  {| filename := py "notes.txt"; file := pdf_magic |}.

Definition report_PDF : UploadFile :=
  {| filename := py "report.PDF"; file := pdf_magic |}.

(** An environment in which the temporary file cannot be opened. *)
Definition readonly_env : Env :=
  {| open_wb := λ _, Some (Exception (py "[Errno 13] Permission denied"));
     copyfileobj_fault := λ _, None;
     open_rb_error := λ _, Exception (py "[Errno 2] No such file or directory");
     pdf_pages := λ _, Ok [];
     from_documents := λ _, Ok ();
     retrieve := λ _, Ok [];
     llm := λ _, Ok [] |}.

(** A world in which [report.pdf] has been saved. *)
Definition world_with_report : World :=
  {| fs := {[ py "temp_uploads/report.pdf" := pdf_magic ]};
     upload_closed := true;
     trace := [] |}.

(** [n] times the letter [a]. *)
Definition letters (n : Z) : text := repeat 97%N (Z.to_nat n).

(** 600 letters, a space, 600 letters. *)
Definition spaced_letters : text := letters 600 ++ [SP] ++ letters 600.

(** Every PDF has one page, of 4999 letters. *)
Definition page_4999_env : Env := quiet_env [Some (letters 4999)].

(** An environment in which the PDF reader gives the listed page
    outcomes and the vector store, the retriever and the model answer as
    told; the disk does not fail. *)
Definition service_env (pages : result (list (result (option text))))
    (store : result ()) (found : result (list Document)) (answer : result text)
  : Env :=
  {| open_wb := λ _, None;
     copyfileobj_fault := λ _, None;
     open_rb_error := λ _, Exception (py "[Errno 2] No such file or directory");
     pdf_pages := λ _, pages;
     from_documents := λ _, store;
     retrieve := λ _, found;
     llm := λ _, answer |}.

(** The disk fills up after two bytes of the copy. *)
Definition disk_full_env : Env :=
  {| open_wb := λ _, None;
     copyfileobj_fault :=
       λ _, Some (2%nat, Exception (py "[Errno 28] No space left on device"));
     open_rb_error := λ _, Exception (py "[Errno 2] No such file or directory");
     pdf_pages := λ _, Ok [];
     from_documents := λ _, Ok ();
     retrieve := λ _, Ok [];
     llm := λ _, Ok [] |}.

(** An upload whose file name is an absolute path. *)
Definition absolute_pdf : UploadFile :=
  {| filename := py "/srv/app/static/index.pdf"; file := pdf_magic |}.

(** Two chunks the retriever may return. *)
Definition paris_docs : list Document :=
  [doc (py "The capital of France is Paris."); doc (py "Paris is on the Seine.")].

(** ** Strings: basic facts *)

Lemma startswith_app (t p : text) : startswith (p ++ t) p = true.
Proof.
  induction p as [|a p IH]; simpl; [by destruct t|].
  by rewrite N.eqb_refl.
Qed.

Lemma startswith_inv (t p : text) :
  startswith t p = true → ∃ q, t = p ++ q.
Proof.
  revert t; induction p as [|a p IH]; intros t H.
  - by exists t.
  - destruct t as [|b t]; [done|]. simpl in H.
    apply andb_true_iff in H as [Hab Hrest].
    apply N.eqb_eq in Hab as ->.
    destruct (IH _ Hrest) as [q ->]. by exists q.
Qed.

Lemma endswith_spec (t p : text) :
  endswith t p = true ↔ ∃ q, t = q ++ p.
Proof.
  unfold endswith; split.
  - intros H. apply startswith_inv in H as [q Hq].
    exists (rev q). apply (f_equal (@rev N)) in Hq.
    by rewrite rev_involutive, rev_app_distr, rev_involutive in Hq.
  - intros [q ->]. rewrite rev_app_distr. apply startswith_app.
Qed.

Lemma endswith_same_length (t p : text) :
  length t = length p → endswith t p = true → t = p.
Proof.
  intros Hlen H. apply endswith_spec in H as [q ->].
  rewrite length_app in Hlen.
  destruct q; [done | simpl in Hlen; lia].
Qed.

(** ** The upload handler: the world it leaves behind *)

Lemma process_upload_world (env : Env) (w : World) (filepath : text) :
  let w' := (process_upload env w filepath).1 in
  fs w' = fs w ∧ upload_closed w' = upload_closed w ∧
  ∃ post, trace w' = trace w ++ EvOpenRead filepath :: post ∧ EvClose ∉ post.
Proof.
  unfold process_upload. simpl.
  destruct (_ ≫= chunk_text) as [chunks|e]; simpl.
  - destruct (from_documents env chunks); simpl;
      (split; [done|split; [done|]]); rewrite <- ?app_assoc; simpl;
      eexists; (split; [reflexivity|]);
      rewrite ?not_elem_of_cons; repeat split; try done; apply not_elem_of_nil.
  - split; [done|split; [done|]]. exists []. split; [done|apply not_elem_of_nil].
Qed.

Lemma save_upload_fs (env : Env) (w : World) (filepath : text) (data : list byte) :
  (save_upload env w filepath data).2 = None →
  fs (save_upload env w filepath data).1 = <[filepath := data]> (fs w).
Proof.
  unfold save_upload.
  destruct (open_wb env filepath); [done|].
  by destruct (copyfileobj_fault env data) as [[n e]|].
Qed.

Lemma upload_file_rejects (env : Env) (w : World) (upload : UploadFile) :
  endswith (filename upload) (py ".pdf") = false →
  upload_file env w upload
  = (w, HTTPException 400 (py "Invalid file type. Only PDFs are allowed.")).
Proof. intros H. unfold upload_file. by rewrite H. Qed.

(** After a successful save the file stays where it was written, whatever
    happens next. *)
Lemma upload_file_keeps_file (env : Env) (w : World) (upload : UploadFile) :
  let filepath := path_join UPLOAD_FOLDER (filename upload) in
  endswith (filename upload) (py ".pdf") = true →
  (save_upload env w filepath (file upload)).2 = None →
  fs (upload_file env w upload).1 !! filepath = Some (file upload).
Proof.
  intros filepath Hext Hsave. unfold upload_file. rewrite Hext. simpl.
  fold filepath.
  pose proof (save_upload_fs env w filepath (file upload) Hsave) as Hfs.
  destruct (save_upload env w filepath (file upload)) as [w1 saved].
  simpl in *. subst saved.
  pose proof (process_upload_world env (close_upload w1) filepath) as (Hfs' & _ & _).
  destruct (process_upload env (close_upload w1) filepath) as [w2 [chunks|e]];
    simpl in *; rewrite Hfs'; simpl; rewrite Hfs; apply lookup_insert_eq.
Qed.

(** ** Upload: the temporary file *)

(** C1, as the specification states it, fails: after a successful upload
    of [report.pdf] the file [temp_uploads/report.pdf] is still on disk
    with the uploaded bytes, so the temporary file is not removed. *)
Lemma temp_file_not_removed :
  (upload_file (quiet_env [Some (py "hello")]) empty_world report_pdf).2
  = Return {| message := py "File successfully uploaded and processed.";
              body_filename := py "report.pdf";
              total_chunks := 1 |} ∧
  fs (upload_file (quiet_env [Some (py "hello")]) empty_world report_pdf).1
    !! py "temp_uploads/report.pdf" = Some pdf_magic ∧
  ¬ temp_file_removed.
Proof.
  split; [by vm_compute|]. split; [by vm_compute|].
  intros H.
  specialize (H (quiet_env [Some (py "hello")]) empty_world report_pdf eq_refl eq_refl).
  vm_compute in H. discriminate H.
Qed.

(** C1 (amended): for every upload that passes the file-name check and
    whose bytes have been saved, the handler never removes the temporary
    file: on every exit path (success, extraction failure, embedding or
    store failure) the file at [temp_uploads/<filename>] is still on disk
    when the handler returns or raises, holding the uploaded bytes. *)
Theorem upload_file_leaves_temp_file (env : Env) (w : World) (upload : UploadFile) :
  let filepath := path_join UPLOAD_FOLDER (filename upload) in
  endswith (filename upload) (py ".pdf") = true →
  (save_upload env w filepath (file upload)).2 = None →
  let out := upload_file env w upload in
  fs out.1 !! filepath = Some (file upload) ∧
  ((∃ body, out.2 = Return body) ∨ (∃ detail, out.2 = HTTPException 500 detail)).
Proof.
  intros filepath Hext Hsave out. split.
  - by apply upload_file_keeps_file.
  - subst out. unfold upload_file. rewrite Hext. simpl. fold filepath.
    destruct (save_upload env w filepath (file upload)) as [w1 saved].
    simpl in Hsave. subst saved.
    destruct (process_upload env (close_upload w1) filepath) as [w2 [chunks|e]];
      simpl; eauto.
Qed.

Lemma upload_file_leaves_temp_file_witness :
  let env := quiet_env [Some (py "hello")] in
  let out := upload_file env empty_world report_pdf in
  fs out.1 !! path_join UPLOAD_FOLDER (filename report_pdf) = Some (file report_pdf) ∧
  ((∃ body, out.2 = Return body) ∨ (∃ detail, out.2 = HTTPException 500 detail)).
Proof.
  apply (upload_file_leaves_temp_file (quiet_env [Some (py "hello")])
           empty_world report_pdf); reflexivity.
Defined.

(** ** Upload: the file-name check *)

(** C3: an upload whose file name does not end in [.pdf] is refused with
    status 400 before any file I/O: the handler's result world is the
    world it started in (no file read or written, the stream untouched,
    nothing added to the trace). *)
Theorem upload_file_non_pdf_rejected (env : Env) (w : World) (upload : UploadFile) :
  endswith (filename upload) (py ".pdf") = false →
  (upload_file env w upload).2
  = HTTPException 400 (py "Invalid file type. Only PDFs are allowed.") ∧
  (upload_file env w upload).1 = w.
Proof. intros H. by rewrite upload_file_rejects. Qed.

Lemma upload_file_non_pdf_rejected_witness :
  (upload_file (quiet_env []) empty_world notes_txt).2
  = HTTPException 400 (py "Invalid file type. Only PDFs are allowed.") ∧
  (upload_file (quiet_env []) empty_world notes_txt).1 = empty_world.
Proof.
  apply (upload_file_non_pdf_rejected (quiet_env []) empty_world notes_txt).
  reflexivity.
Defined.

(** C9: the extension check is case-sensitive. A file name that ends in
    an upper-case or mixed-case spelling of [.pdf] other than [.pdf]
    itself is refused with status 400. *)
Theorem upload_file_extension_case_sensitive
    (env : Env) (w : World) (upload : UploadFile) (stem ext : text) :
  filename upload = stem ++ ext →
  Forall2 case_variant ext (py ".pdf") →
  ext ≠ py ".pdf" →
  (upload_file env w upload).2
  = HTTPException 400 (py "Invalid file type. Only PDFs are allowed.").
Proof.
  intros Hname Hvar Hne.
  rewrite upload_file_rejects; [done|].
  destruct (endswith (filename upload) (py ".pdf")) eqn:Hends; [|done].
  exfalso. apply Hne.
  apply endswith_spec in Hends as [q Hq].
  apply Forall2_length in Hvar.
  rewrite Hname in Hq.
  apply (f_equal (@rev N)) in Hq. rewrite !rev_app_distr in Hq.
  apply (f_equal (take (length ext))) in Hq.
  rewrite <- (length_rev ext) in Hq at 1.
  rewrite take_app_length in Hq.
  rewrite Hvar, <- (length_rev (py ".pdf")), take_app_length in Hq.
  apply (f_equal (@rev N)) in Hq. by rewrite !rev_involutive in Hq.
Qed.

Lemma upload_file_extension_case_sensitive_witness :
  (upload_file (quiet_env [Some (py "hello")]) empty_world report_PDF).2
  = HTTPException 400 (py "Invalid file type. Only PDFs are allowed.").
Proof.
  apply (upload_file_extension_case_sensitive
           (quiet_env [Some (py "hello")]) empty_world report_PDF
           (py "report") (py ".PDF")).
  - reflexivity.
  - unfold py; simpl.
    constructor; [by left|].
    do 3 (constructor; [right; split; [lia|split; [lia|reflexivity]]|]).
    constructor.
  - discriminate.
Defined.

(** ** Upload: the uploaded stream *)

(** C10: for every upload that passes the file-name check the stream is
    closed, whether the save succeeded or failed. The close comes right
    after the events of the save and before everything the handler does
    next; when the save failed nothing comes next and the handler raises
    status 500. *)
Theorem upload_file_closes_stream (env : Env) (w : World) (upload : UploadFile) :
  let filepath := path_join UPLOAD_FOLDER (filename upload) in
  endswith (filename upload) (py ".pdf") = true →
  let saved := save_upload env w filepath (file upload) in
  let out := upload_file env w upload in
  upload_closed out.1 = true ∧
  (∃ post, trace out.1 = trace saved.1 ++ (EvClose :: post) ∧ (EvClose ∉ post) ∧
           (saved.2 = None → ∃ post', post = (EvOpenRead filepath :: post')) ∧
           (saved.2 ≠ None → post = [])) ∧
  (∀ e, saved.2 = Some e →
        out.2 = HTTPException 500 (py "Could not save file: " ++ str_exn e)).
Proof.
  intros filepath Hext saved out. subst saved out.
  unfold upload_file. rewrite Hext. simpl. fold filepath.
  destruct (save_upload env w filepath (file upload)) as [w1 [e|]]; simpl.
  - split; [done|]. split.
    + exists []. split; [done|]. split; [apply not_elem_of_nil|]. by split.
    + by intros e' [= ->].
  - pose proof (process_upload_world env (close_upload w1) filepath)
      as (_ & Hclosed & post & Htrace & Hpost).
    destruct (process_upload env (close_upload w1) filepath) as [w2 [chunks|e]];
      simpl in *; (split; [done|]); (split; [|done]);
      exists (EvOpenRead filepath :: post); rewrite Htrace, <- app_assoc; simpl;
      (split; [done|]); (split; [by rewrite not_elem_of_cons|]); split; eauto; done.
Qed.

Lemma upload_file_closes_stream_witness :
  let filepath := path_join UPLOAD_FOLDER (filename report_pdf) in
  let saved := save_upload readonly_env empty_world filepath (file report_pdf) in
  let out := upload_file readonly_env empty_world report_pdf in
  upload_closed out.1 = true ∧
  (∃ post, trace out.1 = trace saved.1 ++ (EvClose :: post) ∧ (EvClose ∉ post) ∧
           (saved.2 = None → ∃ post', post = (EvOpenRead filepath :: post')) ∧
           (saved.2 ≠ None → post = [])) ∧
  (∀ e, saved.2 = Some e →
        out.2 = HTTPException 500 (py "Could not save file: " ++ str_exn e)).
Proof.
  apply (upload_file_closes_stream readonly_env empty_world report_pdf).
  reflexivity.
Defined.

(** ** Text extractor *)

Lemma read_pages_ok (pages : list (option text)) (text_content : text) :
  read_pages (map Ok pages) text_content
  = Ok (text_content ++ concat (map page_text pages)).
Proof.
  revert text_content; induction pages as [|p pages IH]; intros acc; simpl.
  - by rewrite app_nil_r.
  - unfold mbind, result_bind. rewrite IH.
    destruct p as [[|c t]|]; simpl; rewrite <- ?app_assoc; simpl;
      rewrite <- ?app_assoc; done.
Qed.

(** C6: for a path that holds a PDF the reader can parse and whose pages
    all give their text, the extractor returns the concatenation, in page
    order, of each page's text followed by a newline; a page that gives
    [None] or the empty string adds nothing. *)
Theorem extract_text_from_pdf_concat
    (env : Env) (w : World) (filepath : text) (data : list byte)
    (pages : list (option text)) :
  fs w !! filepath = Some data →
  pdf_pages env data = Ok (map Ok pages) →
  (extract_text_from_pdf env w filepath).2 = Ok (concat (map page_text pages)).
Proof.
  intros Hfile Hpages. unfold extract_text_from_pdf. simpl.
  rewrite Hfile. unfold mbind, result_bind. rewrite Hpages.
  by rewrite read_pages_ok.
Qed.

Lemma extract_text_from_pdf_concat_witness :
  (extract_text_from_pdf
     (quiet_env [Some (py "Page one"); None; Some []; Some (py "Page four")])
     world_with_report (py "temp_uploads/report.pdf")).2
  = Ok (py "Page one" ++ [NL] ++ py "Page four" ++ [NL]).
Proof.
  apply (extract_text_from_pdf_concat
           (quiet_env [Some (py "Page one"); None; Some []; Some (py "Page four")])
           world_with_report (py "temp_uploads/report.pdf") pdf_magic
           [Some (py "Page one"); None; Some []; Some (py "Page four")]).
  - vm_compute. reflexivity.
  - reflexivity.
Defined.

(** ** The prompt *)

Lemma prompt_ok (context question : text) :
  prompt context question = Ok (prompt_text context question).
Proof. vm_compute. reflexivity. Qed.

(** C5, as the specification states it, fails: the prompt tells the model
    neither to answer only from the given context nor to speak up when
    the context is insufficient. For this context and question the words
    [only] and [insufficient] are nowhere in the prompt; what it says is
    to use the retrieved context and to say so when the answer is not
    known. *)
Lemma prompt_has_no_only_clause :
  prompt (py "Paris is the capital of France.") (py "What is the capital of France?")
  = Ok (prompt_text (py "Paris is the capital of France.")
          (py "What is the capital of France?")) ∧
  contains (prompt_text (py "Paris is the capital of France.")
              (py "What is the capital of France?")) (py "only") = false ∧
  contains (prompt_text (py "Paris is the capital of France.")
              (py "What is the capital of France?")) (py "insufficient") = false ∧
  contains (prompt_text (py "Paris is the capital of France.")
              (py "What is the capital of France?"))
    (py "Use the following pieces of retrieved context to answer the question.")
  = true ∧
  contains (prompt_text (py "Paris is the capital of France.")
              (py "What is the capital of France?"))
    (py "If you don't know the answer, just say that you don't know.")
  = true.
Proof. repeat split; by vm_compute. Qed.

(** C5 (amended): for every context and question the prompt is the fixed
    template with the context string and the question inserted verbatim,
    whatever characters they hold. The template tells the model to use
    the retrieved context to answer the question, to say that it does not
    know when it does not know the answer, and to keep the answer concise
    and professional: these three sentences are in every prompt. The
    chain hands exactly this prompt to the language model. *)
Theorem prompt_fixed_template (env : Env) (w : World) (context question : text) :
  prompt context question = Ok (prompt_text context question) ∧
  rag_chain env w question
  = match retrieve env question with
    | Raise e => (emit (EvRetrieve question) w, Raise e)
    | Ok docs =>
        let p := prompt_text (format_docs docs) question in
        (emit (EvLLM p) (emit (EvRetrieve question) w), llm env p)
    end ∧
  substring
    (py "Use the following pieces of retrieved context to answer the question.")
    (prompt_text context question) ∧
  substring
    (py "If you don't know the answer, just say that you don't know.")
    (prompt_text context question) ∧
  substring (py "Keep the answer concise and professional.")
    (prompt_text context question).
Proof.
  split; [apply prompt_ok|]. split.
  { unfold rag_chain. destruct (retrieve env question) as [docs|e]; [|done].
    by rewrite prompt_ok. }
  split; [|split].
  - exists [],
      ([SP; NL] ++
       py "        If you don't know the answer, just say that you don't know. " ++ [NL] ++
       py "        Keep the answer concise and professional." ++ [NL] ++
       py "        " ++ [NL] ++
       py "        Context: " ++ context ++ [NL] ++
       py "        " ++ [NL] ++
       py "        Question: " ++ question ++ [NL] ++
       py "        " ++ [NL] ++
       py "        Answer:").
    vm_compute. reflexivity.
  - exists
      (py "Use the following pieces of retrieved context to answer the question. " ++ [NL] ++
       py "        "),
      ([SP; NL] ++
       py "        Keep the answer concise and professional." ++ [NL] ++
       py "        " ++ [NL] ++
       py "        Context: " ++ context ++ [NL] ++
       py "        " ++ [NL] ++
       py "        Question: " ++ question ++ [NL] ++
       py "        " ++ [NL] ++
       py "        Answer:").
    vm_compute. reflexivity.
  - exists
      (py "Use the following pieces of retrieved context to answer the question. " ++ [NL] ++
       py "        If you don't know the answer, just say that you don't know. " ++ [NL] ++
       py "        "),
      ([NL] ++
       py "        " ++ [NL] ++
       py "        Context: " ++ context ++ [NL] ++
       py "        " ++ [NL] ++
       py "        Question: " ++ question ++ [NL] ++
       py "        " ++ [NL] ++
       py "        Answer:").
    vm_compute. reflexivity.
Qed.

(** ** The splitter never raises *)

Module SplitterFacts.
Import Splitter.

Lemma sep_if_nil (b : bool) : sep_if b (len []) = 0.
Proof. by destruct b. Qed.

Lemma len_app (a b : text) : len (a ++ b) = len a + len b.
Proof. unfold len. rewrite length_app. lia. Qed.

Lemma len_nonneg (a : text) : 0 ≤ len a.
Proof. unfold len. lia. Qed.

Lemma regex_splits_nonempty (t separator : text) :
  Forall (λ s, s ≠ []) (_split_text_with_regex t separator).
Proof.
  unfold _split_text_with_regex. apply Forall_forall. intros s Hs.
  by apply list_elem_of_filter in Hs as [Hs _].
Qed.

Section Total.
Variable cfg : config.
Hypothesis overlap_nonneg : 0 ≤ chunk_overlap cfg.

(** The invariant of [_merge_splits] with the empty separator: [total]
    is the length of what [current_doc] holds, and no split is empty;
    so the inner loop stops before it runs out of splits to drop. *)
Lemma pop_front_ok (current_doc : list text) (_len : Z) :
  Forall (λ s, s ≠ []) current_doc →
  ∃ current_doc',
    pop_front cfg [] current_doc (len (concat current_doc)) _len
    = Ok (current_doc', len (concat current_doc')) ∧
    Forall (λ s, s ≠ []) current_doc'.
Proof.
  induction current_doc as [|d0 rest IH]; intros Hne.
  - exists []. split; [|done]. simpl. unfold keep_popping. simpl.
    change (len (@nil N)) with 0.
    replace (0 >? chunk_overlap cfg) with false.
    * simpl. by rewrite andb_false_r.
    * symmetry. rewrite Z.gtb_ltb. by apply Z.ltb_ge.
  - simpl. destruct (keep_popping _ _ _ _ _).
    + apply Forall_cons in Hne as [_ Hne].
      destruct (IH Hne) as (cur' & Heq & Hne').
      exists cur'. split; [|done].
      rewrite sep_if_nil, len_app.
      replace (len d0 + len (concat rest) - (len d0 + 0))
        with (len (concat rest)) by lia.
      done.
    + by exists (d0 :: rest).
Qed.

Lemma merge_loop_ok (splits docs current_doc : list text) :
  Forall (λ s, s ≠ []) splits →
  Forall (λ s, s ≠ []) current_doc →
  ∃ merged,
    merge_loop cfg [] splits docs current_doc (len (concat current_doc))
    = Ok merged.
Proof.
  revert docs current_doc.
  induction splits as [|d splits IH]; intros docs cur Hsplits Hcur.
  - simpl. eauto.
  - apply Forall_cons in Hsplits as [Hd Hsplits]. simpl.
    assert (Hnext : ∀ docs' cur',
               Forall (λ s, s ≠ []) cur' →
               ∃ merged,
                 merge_loop cfg [] splits docs' (cur' ++ [d])
                   (len (concat cur') + (len d + sep_if (1 <? length (cur' ++ [d]))%nat (len [])))
                 = Ok merged).
    { intros docs' cur' Hcur'.
      rewrite sep_if_nil, Z.add_0_r.
      replace (len (concat cur') + len d) with (len (concat (cur' ++ [d]))).
      - apply IH; [done|]. apply Forall_app. by split; [|apply Forall_singleton].
      - rewrite concat_app, len_app. simpl. by rewrite app_nil_r. }
    destruct (_ >? chunk_size cfg); [|by apply Hnext].
    destruct (0 <? length cur)%nat; [|by apply Hnext].
    destruct (pop_front_ok cur (len d) Hcur) as (cur' & -> & Hcur').
    by apply Hnext.
Qed.

Lemma flush_ok (final_chunks _good_splits : list text) :
  Forall (λ s, s ≠ []) _good_splits →
  ∃ chunks, flush cfg final_chunks _good_splits = Ok chunks.
Proof.
  intros Hgood. unfold flush. destruct _good_splits as [|g good]; [eauto|].
  destruct (merge_loop_ok (g :: good) [] [] Hgood (Forall_nil_2 _)) as [merged Hm].
  change (_merge_splits cfg [] (g :: good) = Ok merged) in Hm.
  rewrite Hm. simpl. eauto.
Qed.

Lemma split_loop_ok (recur : option (text → result (list text)))
    (splits final_chunks _good_splits : list text) :
  (∀ f, recur = Some f → ∀ s, ∃ chunks, f s = Ok chunks) →
  Forall (λ s, s ≠ []) splits →
  Forall (λ s, s ≠ []) _good_splits →
  ∃ chunks, split_loop cfg recur splits final_chunks _good_splits = Ok chunks.
Proof.
  intros Hrecur. revert final_chunks _good_splits.
  induction splits as [|s splits IH]; intros fc good Hsplits Hgood; simpl.
  - by apply flush_ok.
  - apply Forall_cons in Hsplits as [Hs Hsplits].
    destruct (len s <? chunk_size cfg).
    + apply IH; [done|]. apply Forall_app. by split; [|apply Forall_singleton].
    + destruct (flush_ok fc good Hgood) as [fc' ->]. simpl.
      destruct recur as [f|].
      * destruct (Hrecur f eq_refl s) as [other ->]. simpl. by apply IH.
      * by apply IH.
Qed.

Lemma _split_text_ok (separators : list text) (t : text) :
  separators ≠ [] → ∃ chunks, _split_text cfg separators t = Ok chunks.
Proof.
  revert t. induction separators as [|_s rest IH]; intros t Hne; [done|].
  assert (Hrecur : ∀ f,
             match rest with [] => None | _ :: _ => Some (_split_text cfg rest) end
             = Some f → ∀ s, ∃ chunks, f s = Ok chunks).
  { intros f Hf s. destruct rest as [|r rest']; [done|].
    injection Hf as <-. by apply IH. }
  simpl. destruct _s as [|c _s].
  - apply split_loop_ok; [done|apply regex_splits_nonempty|done].
  - destruct (contains t (c :: _s)).
    + apply split_loop_ok; [done|apply regex_splits_nonempty|done].
    + destruct rest as [|r rest'].
      * apply split_loop_ok; [done|apply regex_splits_nonempty|done].
      * by apply IH.
Qed.
End Total.

End SplitterFacts.

Lemma chunk_text_total (raw_text : text) :
  ∃ chunks, chunk_text raw_text = Ok chunks.
Proof.
  unfold chunk_text, create_documents, Splitter.split_text.
  destruct (SplitterFacts._split_text_ok splitter_config ltac:(done)
              (Splitter.separators splitter_config) raw_text ltac:(done))
    as [chunks ->].
  simpl. eauto.
Qed.

(** *** The splitter at work *)

Example chunk_text_hello :
  chunk_text (py "hello world") = Ok [doc (py "hello world")].
Proof. by vm_compute. Qed.

(** Cut at the spaces, merged up to ten characters, at most three
    characters of whole words carried over, and every chunk stripped. *)
Example split_text_words :
  Splitter.split_text
    {| Splitter.chunk_size := 10; Splitter.chunk_overlap := 3;
       Splitter.separators := [[NL; NL]; [NL]; [SP]; []] |}
    (py "aa bb cc dd ee ff")
  = Ok [py "aa bb cc"; py "cc dd ee"; py "ee ff"].
Proof. by vm_compute. Qed.

(** No separator to cut at: windows of ten characters, every seven. *)
Example split_text_letters :
  Splitter.split_text
    {| Splitter.chunk_size := 10; Splitter.chunk_overlap := 3;
       Splitter.separators := [[NL; NL]; [NL]; [SP]; []] |}
    (py "abcdefghijklmnopqrstuvwxyz")
  = Ok [py "abcdefghij"; py "hijklmnopq"; py "opqrstuvwx"; py "vwxyz"].
Proof. by vm_compute. Qed.

(** ** Sliding windows *)

Section Windows.
Variables size overlap : nat.
Hypothesis overlap_lt_size : (overlap < size)%nat.

Lemma windows_fuel_enough (fuel1 fuel2 : nat) (t : text) :
  (length t ≤ fuel1)%nat → (length t ≤ fuel2)%nat →
  windows_fuel fuel1 size overlap t = windows_fuel fuel2 size overlap t.
Proof.
  revert fuel2 t. induction fuel1 as [|fuel1 IH]; intros fuel2 t H1 H2.
  - destruct t; [|simpl in H1; lia]. by destruct fuel2.
  - destruct fuel2 as [|fuel2]; [destruct t; [done|simpl in H2; lia]|].
    simpl. destruct t as [|c t]; [done|].
    destruct (length (c :: t) <=? size)%nat; [done|].
    f_equal. apply IH; rewrite length_drop; simpl in *; lia.
Qed.

Lemma windows_short (t : text) :
  t ≠ [] → (length t ≤ size)%nat → windows size overlap t = [t].
Proof.
  intros Hne Hlen. unfold windows. destruct t as [|c t]; [done|].
  simpl. apply Nat.leb_le in Hlen. simpl in Hlen. by rewrite Hlen.
Qed.

Lemma windows_long (t : text) :
  (size < length t)%nat →
  windows size overlap t
  = take size t :: windows size overlap (drop (size - overlap) t).
Proof.
  intros Hlen. unfold windows at 1. destruct t as [|c t]; [simpl in Hlen; lia|].
  cbn [length windows_fuel].
  replace (S (length t) <=? size)%nat with false
    by (symmetry; apply Nat.leb_gt; simpl in Hlen; lia).
  f_equal. apply windows_fuel_enough; [|done].
  rewrite length_drop. simpl. lia.
Qed.

(** The first window of a text longer than the overlap starts with the
    first [overlap] characters of the text. *)
Lemma windows_head (t b : text) (rest : list text) :
  (overlap < length t)%nat →
  windows size overlap t = b :: rest →
  (overlap ≤ length b)%nat ∧ take overlap b = take overlap t.
Proof.
  intros Hlen Hw.
  destruct (decide (length t ≤ size)%nat) as [Hshort|Hlong].
  - rewrite windows_short in Hw; [|by destruct t; simpl in *; [lia|]|done].
    injection Hw as <- _. split; [lia|done].
  - rewrite windows_long in Hw by lia. injection Hw as <- _.
    split; [rewrite length_take; lia|].
    rewrite take_take. f_equal. lia.
Qed.



Lemma adjacent_overlap_windows (t : text) :
  adjacent_overlap overlap (windows size overlap t).
Proof.
  remember (length t) as n eqn:Hn. revert t Hn.
  induction (lt_wf n) as [n _ IH]; intros t ->.
  destruct (decide (length t ≤ size)%nat) as [Hshort|Hlong].
  - destruct t as [|c t]; [by intros i a b Ha|].
    rewrite windows_short; [|done|done]. by intros [|i] a b Ha Hb.
  - rewrite windows_long by lia.
    set (t' := drop (size - overlap) t).
    assert (Hlen' : (overlap < length t')%nat)
      by (unfold t'; rewrite length_drop; lia).
    intros [|i] a b Ha Hb; simpl in Ha, Hb.
    + injection Ha as <-.
      destruct (windows size overlap t') as [|b' rest] eqn:Hw; [done|].
      injection Hb as ->.
      destruct (windows_head t' b rest Hlen' Hw) as [Hb Htake].
      unfold shares_overlap. rewrite length_take.
      split; [lia|]. split; [done|].
      rewrite Htake. unfold t'.
      replace (size `min` length t - overlap)%nat with (size - overlap)%nat by lia.
      rewrite take_drop_commute. f_equal. f_equal. lia.
    + apply (IH (length t')) with (t := t') (i := i); [|done|done|done].
      unfold t'. rewrite length_drop. lia.
Qed.

End Windows.

(** ** The splitter on text without whitespace

    With no newline and no space in the text the recursive splitter falls
    through to the empty separator: the text is cut into characters and
    [_merge_splits] glues them back into sliding windows. *)

Module SplitterWindows.
Import Splitter SplitterFacts.

Ltac zbool :=
  rewrite ?Z.gtb_ltb;
  repeat match goal with
         | |- context [(?a <? ?b)%Z] => destruct (Z.ltb_spec a b)
         end;
  simpl; unfold len in *; cbn [length] in *; try lia.

Lemma length_chars (t : text) : length (chars t) = length t.
Proof. apply length_map. Qed.

Lemma chars_app (a b : text) : chars (a ++ b) = chars a ++ chars b.
Proof. apply map_app. Qed.

Lemma join_chars (t : text) : join [] (chars t) = t.
Proof.
  induction t as [|c t IH]; [done|].
  destruct t as [|c' t]; [done|].
  change (join [] (chars (c :: c' :: t)))
    with ([c] ++ [] ++ join [] (chars (c' :: t))).
  by rewrite IH.
Qed.

Lemma lstrip_clean (t : text) : clean t → lstrip t = t.
Proof. intros H. destruct H as [|c t Hc _]; [done|]. simpl. by rewrite Hc. Qed.

Lemma strip_clean (t : text) : clean t → strip t = t.
Proof.
  intros H. unfold strip, rstrip. rewrite (lstrip_clean t H).
  rewrite lstrip_clean by by apply Forall_rev.
  apply rev_involutive.
Qed.

Lemma _join_docs_chars (t : text) :
  clean t → _join_docs (chars t) [] = match t with [] => None | _ => Some t end.
Proof. intros H. unfold _join_docs. by rewrite join_chars, strip_clean. Qed.

Lemma keep_popping_nil (cfg : config) (cur : list text) (total _len : Z) :
  keep_popping cfg [] cur total _len
  = (total >? chunk_overlap cfg) ||
    ((total + _len >? chunk_size cfg) && (total >? 0)).
Proof. unfold keep_popping. by rewrite sep_if_nil, Z.add_0_r. Qed.

Lemma pop_front_eq (cfg : config) (cur : list text) (total _len : Z) :
  pop_front cfg [] cur total _len
  = if keep_popping cfg [] cur total _len then
      match cur with
      | [] => Raise (Exception (py "list index out of range"))
      | d0 :: rest => pop_front cfg [] rest (total - len d0) _len
      end
    else Ok (cur, total).
Proof. destruct cur; simpl; by rewrite ?sep_if_nil, ?Z.add_0_r. Qed.

Lemma merge_loop_cons (cfg : config) (d : text) (splits docs cur : list text)
    (total : Z) :
  merge_loop cfg [] (d :: splits) docs cur total
  = if (total + len d >? chunk_size cfg) && (0 <? length cur)%nat then
      match pop_front cfg [] cur total (len d) with
      | Ok (cur', total') =>
          merge_loop cfg [] splits (docs ++ option_list (_join_docs cur []))
            (cur' ++ [d]) (total' + len d)
      | Raise e => Raise e
      end
    else merge_loop cfg [] splits docs (cur ++ [d]) (total + len d).
Proof.
  simpl. rewrite !sep_if_nil, !Z.add_0_r.
  destruct (_ >? _); simpl; [|by rewrite sep_if_nil, Z.add_0_r].
  destruct (0 <? length cur)%nat; simpl; [|by rewrite sep_if_nil, Z.add_0_r].
  destruct (pop_front _ _ _ _ _) as [[cur' total']|e]; simpl; [|done].
  by rewrite sep_if_nil, Z.add_0_r.
Qed.

Section Chars.
Variable cfg : config.
Hypothesis overlap_nonneg : 0 ≤ chunk_overlap cfg.
Hypothesis overlap_lt_size : chunk_overlap cfg < chunk_size cfg.

Let size : nat := Z.to_nat (chunk_size cfg).
Let overlap : nat := Z.to_nat (chunk_overlap cfg).

(** The inner loop on a full window of characters keeps its last
    [chunk_overlap] characters. *)
Lemma pop_front_chars (u : text) :
  chunk_overlap cfg ≤ len u → len u ≤ chunk_size cfg →
  pop_front cfg [] (chars u) (len u) 1
  = Ok (chars (drop (length u - overlap) u), chunk_overlap cfg).
Proof.
  induction u as [|c u IH]; intros Hlo Hhi.
  - rewrite pop_front_eq, keep_popping_nil. unfold len in *. simpl in *.
    zbool. repeat f_equal. lia.
  - rewrite pop_front_eq, keep_popping_nil.
    assert (Hlen : len (c :: u) = len u + 1) by (unfold len; simpl; lia).
    destruct (decide (chunk_overlap cfg < len (c :: u))) as [Hpop|Hstop].
    + replace (len (c :: u) >? chunk_overlap cfg) with true by (zbool).
      simpl chars. cbn iota. simpl orb. cbn iota.
      replace (len (c :: u) - len [c]) with (len u)
        by (rewrite Hlen; unfold len; simpl; lia).
      rewrite IH by lia.
      replace (S (length u) - overlap)%nat with (S (length u - overlap))
        by (unfold len, overlap in *; simpl in *; lia).
      done.
    + replace (len (c :: u) >? chunk_overlap cfg) with false by (zbool).
      replace (len (c :: u) + 1 >? chunk_size cfg) with false by (zbool).
      simpl orb. cbn iota.
      replace (length (c :: u) - overlap)%nat with 0%nat
        by (unfold len, overlap in *; simpl in *; lia).
      rewrite drop_0. repeat f_equal. lia.
Qed.

(** Characters are taken in without a chunk being emitted as long as
    the window is not full. *)
Lemma merge_loop_absorb (a : text) (rest docs : list text) (u : text) :
  len u + len a ≤ chunk_size cfg →
  merge_loop cfg [] (chars a ++ rest) docs (chars u) (len u)
  = merge_loop cfg [] rest docs (chars (u ++ a)) (len (u ++ a)).
Proof.
  revert u. induction a as [|c a IH]; intros u Hlen.
  - by rewrite app_nil_r.
  - assert (Hc : len (c :: a) = 1 + len a) by (unfold len; simpl; lia).
    simpl chars. simpl app. rewrite merge_loop_cons.
    change (len [c]) with 1.
    replace (len u + 1 >? chunk_size cfg) with false by (zbool).
    simpl andb. cbn iota.
    change [[c]] with (chars [c]). rewrite <- chars_app.
    replace (len u + 1) with (len (u ++ [c])) by (rewrite len_app; done).
    rewrite IH by (rewrite len_app; change (len [c]) with 1; lia).
    by rewrite <- app_assoc.
Qed.

(** On a full window the next character emits the window and starts
    the next one from its last [chunk_overlap] characters. *)
Lemma merge_loop_emit (c : N) (rest docs : list text) (u : text) :
  clean u → len u = chunk_size cfg →
  merge_loop cfg [] (chars [c] ++ rest) docs (chars u) (len u)
  = merge_loop cfg [] rest (docs ++ [u])
      (chars (drop (size - overlap) u ++ [c]))
      (len (drop (size - overlap) u ++ [c])).
Proof.
  intros Hclean Hlen. simpl chars. simpl app. rewrite merge_loop_cons.
  change (len [c]) with 1.
  replace (len u + 1 >? chunk_size cfg) with true by (zbool).
  rewrite length_chars.
  replace (0 <? length u)%nat with true
    by (symmetry; apply Nat.ltb_lt; unfold len in *; lia).
  simpl andb. cbn iota.
  rewrite pop_front_chars by lia.
  rewrite _join_docs_chars by done.
  destruct u as [|c0 u]; [unfold len in *; simpl in *; lia|].
  cbn [option_list].
  replace (length (c0 :: u) - overlap)%nat with (size - overlap)%nat
    by (unfold len, size, overlap in *; lia).
  change [[c]] with (chars [c]). rewrite <- chars_app.
  f_equal. rewrite len_app. change (len [c]) with 1.
  unfold len. rewrite length_drop.
  unfold len, size, overlap in *. lia.
Qed.

(** [_merge_splits] on characters builds the sliding windows. *)
Lemma merge_loop_windows (n : nat) (t : text) (docs : list text) (u : text) :
  (length t ≤ n)%nat → clean (u ++ t) → len u ≤ chunk_size cfg →
  merge_loop cfg [] (chars t) docs (chars u) (len u)
  = Ok (docs ++ windows size overlap (u ++ t)).
Proof.
  revert t docs u. induction n as [|n IH]; intros t docs u Hn Hclean Hu.
  - destruct t; [|simpl in Hn; lia]. rewrite app_nil_r in *.
    simpl. rewrite _join_docs_chars by done.
    destruct u as [|c u]; [done|].
    rewrite windows_short; [done|done|unfold len, size in *; lia].
  - destruct (decide (len u + len t ≤ chunk_size cfg)) as [Hfit|Hover].
    + rewrite <- (app_nil_r (chars t)), merge_loop_absorb by done.
      simpl. rewrite _join_docs_chars by done.
      destruct (u ++ t) as [|c ut] eqn:Hut; [done|].
      rewrite windows_short; [done|done|].
      rewrite <- Hut. rewrite length_app. unfold len, size in *. lia.
    + set (k := (size - length u)%nat).
      assert (Hk : (k < length t)%nat) by (unfold k, len, size in *; lia).
      rewrite <- (take_drop k t) at 1.
      rewrite chars_app, merge_loop_absorb
        by (unfold len; rewrite length_take; unfold k, len, size in *; lia).
      destruct (drop k t) as [|c t'] eqn:Hdrop.
      { apply (f_equal length) in Hdrop. rewrite length_drop in Hdrop.
        simpl in Hdrop. lia. }
      assert (Hfull : len (u ++ take k t) = chunk_size cfg).
      { rewrite len_app. unfold len. rewrite length_take.
        unfold k, len, size in *. lia. }
      assert (Ht : u ++ t = (u ++ take k t) ++ c :: t').
      { by rewrite <- app_assoc, <- Hdrop, take_drop. }
      assert (Hclean' : clean ((u ++ take k t) ++ c :: t')) by by rewrite <- Ht.
      apply Forall_app in Hclean' as [Hc1 Hc2].
      change (chars (c :: t')) with (chars [c] ++ chars t').
      rewrite merge_loop_emit by done.
      assert (Hdroplen : length (drop (size - overlap) (u ++ take k t))
                         = overlap).
      { rewrite length_drop. unfold len, size, overlap in *. lia. }
      assert (Hw : windows size overlap (u ++ t)
                   = (u ++ take k t)
                     :: windows size overlap
                          ((drop (size - overlap) (u ++ take k t) ++ [c]) ++ t')).
      { rewrite (windows_long size overlap) with (t := u ++ t);
          [|unfold size, overlap; lia
           |rewrite length_app; unfold len, size in *; lia].
        f_equal.
        - rewrite Ht, take_app_le by (unfold len, size in *; lia).
          apply take_ge. unfold len, size in *; lia.
        - f_equal. rewrite Ht.
          rewrite drop_app_le by (unfold len, size, overlap in *; lia).
          by rewrite <- app_assoc. }
      rewrite IH.
      * by rewrite Hw, <- app_assoc.
      * apply (f_equal length) in Hdrop. rewrite length_drop in Hdrop.
        simpl in Hdrop. lia.
      * rewrite <- app_assoc. apply Forall_app. split; [|done].
        by apply Forall_drop.
      * rewrite len_app. change (len [c]) with 1. unfold len.
        rewrite Hdroplen. unfold overlap. lia.
Qed.
End Chars.

(** *** From characters to chunks *)

Lemma regex_chars (t : text) : _split_text_with_regex t [] = chars t.
Proof.
  unfold _split_text_with_regex, chars.
  induction t as [|c t IH]; [done|].
  simpl. rewrite filter_cons_True by done. by rewrite IH.
Qed.

Lemma clean_not_in (t : text) (c : N) :
  clean t → py_isspace c = true → c ∉ t.
Proof.
  intros Hclean Hc Hin.
  apply (proj1 (Forall_forall _ _) Hclean) in Hin. congruence.
Qed.

Lemma contains_absent (t p : text) (c : N) : c ∉ t → contains t (c :: p) = false.
Proof.
  induction t as [|a t IH]; intros Hc; [done|].
  apply not_elem_of_cons in Hc as [Hne Hc].
  cbn [contains startswith].
  replace (c =? a)%N with false by (symmetry; by apply N.eqb_neq).
  simpl. by apply IH.
Qed.

Lemma contains_newline_end (t : text) : contains (t ++ [NL]) [NL] = true.
Proof.
  induction t as [|a t IH]; [done|].
  change ((a :: t) ++ [NL]) with (a :: (t ++ [NL])).
  cbn [contains]. rewrite IH. apply orb_true_r.
Qed.

Lemma contains_blank_line_end (t : text) :
  NL ∉ t → contains (t ++ [NL]) [NL; NL] = false.
Proof.
  induction t as [|a t IH]; intros Hc; [done|].
  apply not_elem_of_cons in Hc as [Hne Hc].
  change ((a :: t) ++ [NL]) with (a :: (t ++ [NL])).
  cbn [contains startswith].
  replace (NL =? a)%N with false by (symmetry; by apply N.eqb_neq).
  simpl. by apply IH.
Qed.

Lemma re_split_newline_end (t cur : text) :
  NL ∉ t →
  re_split_go [NL] (t ++ [NL]) 0 cur = (rev cur ++ t, [([NL], [])]).
Proof.
  revert cur. induction t as [|a t IH]; intros cur Hc.
  - simpl. by rewrite app_nil_r.
  - apply not_elem_of_cons in Hc as [Hne Hc].
    change ((a :: t) ++ [NL]) with (a :: (t ++ [NL])).
    cbn [re_split_go startswith].
    replace (NL =? a)%N with false by (symmetry; by apply N.eqb_neq).
    simpl andb. cbn iota. rewrite IH by done.
    simpl. by rewrite <- app_assoc.
Qed.

Lemma regex_newline_end (t : text) :
  NL ∉ t →
  _split_text_with_regex (t ++ [NL]) [NL]
  = match t with [] => [[NL]] | _ => [t; [NL]] end.
Proof.
  intros Hc. unfold _split_text_with_regex, re_split.
  rewrite re_split_newline_end by done. simpl.
  destruct t as [|a t].
  - rewrite filter_cons_False by (intros H; by apply H).
    by rewrite filter_cons_True.
  - by rewrite !filter_cons_True.
Qed.

Lemma strip_newline_end (t : text) : clean t → strip (t ++ [NL]) = t.
Proof.
  intros Hclean. unfold strip.
  assert (Hr : ∀ s, clean s → rstrip (s ++ [NL]) = s).
  { intros s Hs. unfold rstrip. rewrite rev_app_distr. simpl.
    rewrite lstrip_clean by by apply Forall_rev.
    apply rev_involutive. }
  destruct Hclean as [|c t Hc Ht]; [done|].
  change (lstrip ((c :: t) ++ [NL])) with
    (if py_isspace c then lstrip (t ++ [NL]) else (c :: t) ++ [NL]).
  rewrite Hc. apply Hr. by constructor.
Qed.

(** The three ways [_split_text] treats its first separator. *)
Lemma _split_text_empty (cfg : config) (rest : list text) (t : text) :
  _split_text cfg ([] :: rest) t
  = split_loop cfg None (_split_text_with_regex t []) [] [].
Proof. done. Qed.

Lemma _split_text_found (cfg : config) (_s : text) (rest : list text) (t : text) :
  _s ≠ [] → contains t _s = true →
  _split_text cfg (_s :: rest) t
  = split_loop cfg
      match rest with [] => None | _ :: _ => Some (_split_text cfg rest) end
      (_split_text_with_regex t _s) [] [].
Proof.
  intros Hne Hfound. destruct _s as [|c _s]; [done|].
  cbn [_split_text]. by rewrite Hfound.
Qed.

Lemma _split_text_skip (cfg : config) (_s r : text) (rest : list text) (t : text) :
  _s ≠ [] → contains t _s = false →
  _split_text cfg (_s :: r :: rest) t = _split_text cfg (r :: rest) t.
Proof.
  intros Hne Habsent. destruct _s as [|c _s]; [done|].
  cbn [_split_text]. by rewrite Habsent.
Qed.

(** [_split_text] in the method's own form: pick the separator, split,
    then run the loop with the recursion on the separators left. *)
Lemma _split_text_pick (cfg : config) (separators : list text) (t : text) :
  separators ≠ [] →
  _split_text cfg separators t
  = let '(separator, new_separators) :=
      pick_separator (List.last separators []) separators t in
    split_loop cfg
      match new_separators with
      | [] => None
      | _ :: _ => Some (_split_text cfg new_separators)
      end
      (_split_text_with_regex t separator) [] [].
Proof.
  induction separators as [|_s rest IH]; intros Hne; [done|].
  destruct _s as [|c _s]; [done|].
  destruct (contains t (c :: _s)) eqn:Hfound.
  - rewrite _split_text_found by done.
    cbn [pick_separator]. by rewrite Hfound.
  - destruct rest as [|r rest].
    + cbn [_split_text pick_separator List.last]. by rewrite Hfound.
    + rewrite _split_text_skip by done.
      rewrite IH by done.
      change (List.last ((c :: _s) :: r :: rest) [])
        with (List.last (r :: rest) []).
      cbn [pick_separator]. by rewrite Hfound.
Qed.

Section Texts.
Variable cfg : config.
Hypothesis overlap_nonneg : 0 ≤ chunk_overlap cfg.
Hypothesis overlap_lt_size : chunk_overlap cfg < chunk_size cfg.
Hypothesis size_gt_1 : 1 < chunk_size cfg.

Let size : nat := Z.to_nat (chunk_size cfg).
Let overlap : nat := Z.to_nat (chunk_overlap cfg).

Lemma split_loop_all_good (recur : option (text → result (list text)))
    (splits final_chunks _good_splits : list text) :
  Forall (λ s, len s < chunk_size cfg) splits →
  split_loop cfg recur splits final_chunks _good_splits
  = flush cfg final_chunks (_good_splits ++ splits).
Proof.
  revert _good_splits. induction splits as [|s splits IH]; intros good Hall.
  - by rewrite app_nil_r.
  - apply Forall_cons in Hall as [Hs Hall]. simpl.
    replace (len s <? chunk_size cfg) with true
      by (symmetry; by apply Z.ltb_lt).
    rewrite IH by done. by rewrite <- app_assoc.
Qed.

Lemma split_loop_long (f : text → result (list text)) (s : text)
    (splits final_chunks : list text) :
  ¬ len s < chunk_size cfg →
  split_loop cfg (Some f) (s :: splits) final_chunks []
  = match f s with
    | Ok other_info =>
        split_loop cfg (Some f) splits (final_chunks ++ other_info) []
    | Raise e => Raise e
    end.
Proof.
  intros Hlong. cbn [split_loop].
  replace (len s <? chunk_size cfg) with false
    by (symmetry; apply Z.ltb_ge; lia).
  done.
Qed.

Lemma flush_chars (final_chunks : list text) (t : text) :
  clean t →
  flush cfg final_chunks (chars t) = Ok (final_chunks ++ windows size overlap t).
Proof.
  intros Hclean. unfold flush.
  destruct (chars t) as [|d ds] eqn:Hchars.
  - destruct t; [|done]. by rewrite app_nil_r.
  - rewrite <- Hchars. unfold _merge_splits.
    change 0 with (len []). change (@nil text) with (chars []) at 2.
    rewrite (merge_loop_windows cfg overlap_nonneg overlap_lt_size (length t));
      [done|done|done|change (len []) with 0; lia].
Qed.

Lemma split_chars (t : text) :
  clean t →
  split_loop cfg None (_split_text_with_regex t []) [] []
  = Ok (windows size overlap t).
Proof.
  intros Hclean. rewrite regex_chars, split_loop_all_good.
  - by apply flush_chars.
  - unfold chars. apply Forall_map, Forall_true. intros c. by simpl.
Qed.

(** No space in the text: the splitter goes on to the empty separator. *)
Lemma _split_text_words (t : text) :
  clean t → _split_text cfg [[SP]; []] t = Ok (windows size overlap t).
Proof.
  intros Hclean.
  rewrite _split_text_skip, _split_text_empty;
    [by apply split_chars|done|].
  by apply contains_absent, clean_not_in.
Qed.

Lemma _split_text_clean (t : text) :
  clean t →
  _split_text cfg [[NL; NL]; [NL]; [SP]; []] t = Ok (windows size overlap t).
Proof.
  intros Hclean.
  rewrite !_split_text_skip, _split_text_empty;
    [by apply split_chars|done|..]; try done;
    by apply contains_absent, clean_not_in.
Qed.

Lemma _merge_splits_newline : _merge_splits cfg [] [[NL]] = Ok [].
Proof.
  unfold _merge_splits. rewrite merge_loop_cons.
  change (len [NL]) with 1.
  replace (0 + 1 >? chunk_size cfg) with false by zbool.
  done.
Qed.

Lemma _merge_splits_page (t : text) :
  clean t → t ≠ [] → len t < chunk_size cfg →
  _merge_splits cfg [] [t; [NL]] = Ok [t].
Proof.
  intros Hclean Hne Hlen. unfold _merge_splits.
  rewrite merge_loop_cons. simpl andb. rewrite andb_false_r.
  rewrite merge_loop_cons. change (len [NL]) with 1.
  replace (0 + len t + 1 >? chunk_size cfg) with false by zbool.
  simpl andb. cbn iota. cbn [merge_loop app].
  unfold _join_docs. cbn [join]. rewrite app_nil_l.
  rewrite strip_newline_end by done. by destruct t.
Qed.

(** A page of text without whitespace, followed by the newline the
    extractor appends. *)
Lemma _split_text_page (t : text) :
  clean t →
  _split_text cfg [[NL; NL]; [NL]; [SP]; []] (t ++ [NL])
  = Ok (windows size overlap t).
Proof.
  intros Hclean.
  assert (Hnl : NL ∉ t) by by apply clean_not_in.
  rewrite _split_text_skip, _split_text_found;
    [|done|apply contains_newline_end|done|by apply contains_blank_line_end].
  rewrite regex_newline_end by done.
  destruct t as [|c t].
  - rewrite split_loop_all_good
      by (apply Forall_singleton; change (len [NL]) with 1; lia).
    unfold flush. cbn [app]. by rewrite _merge_splits_newline.
  - destruct (decide (len (c :: t) < chunk_size cfg)) as [Hshort|Hlong].
    + rewrite split_loop_all_good.
      * unfold flush. cbn [app].
        rewrite _merge_splits_page by done. simpl.
        rewrite windows_short; [done|done|unfold len, size in *; lia].
      * repeat constructor; [done|change (len [NL]) with 1; lia].
    + rewrite split_loop_long, _split_text_words by done.
      rewrite split_loop_all_good
        by (apply Forall_singleton; change (len [NL]) with 1; lia).
      unfold flush. cbn [app]. rewrite _merge_splits_newline. simpl.
      by rewrite app_nil_r.
Qed.
End Texts.
End SplitterWindows.

(** *** The chunker on text without whitespace *)

Lemma chunk_text_clean (t : text) :
  clean t →
  chunk_text t = Ok (map doc (windows 1000 200 t)).
Proof.
  intros Hclean. unfold chunk_text, create_documents, Splitter.split_text.
  cbn [Splitter.separators splitter_config].
  rewrite SplitterWindows._split_text_clean by (simpl; done || lia).
  simpl. by rewrite app_nil_r.
Qed.

Lemma chunk_text_page (t : text) :
  clean t →
  chunk_text (t ++ [NL]) = Ok (map doc (windows 1000 200 t)).
Proof.
  intros Hclean. unfold chunk_text, create_documents, Splitter.split_text.
  cbn [Splitter.separators splitter_config].
  rewrite SplitterWindows._split_text_page by (simpl; done || lia).
  simpl. by rewrite app_nil_r.
Qed.

(** ** A successful upload *)

Lemma extract_after_save (env : Env) (w : World) (filepath : text)
    (data : list byte) (pages : list (option text)) :
  fs w !! filepath = Some data →
  pdf_pages env data = Ok (map Ok pages) →
  extract_text_from_pdf env w filepath
  = (emit (EvOpenRead filepath) w, Ok (concat (map page_text pages))).
Proof.
  intros Hfile Hpages. unfold extract_text_from_pdf. cbn [emit fs].
  rewrite Hfile. unfold mbind, result_bind. rewrite Hpages.
  by rewrite read_pages_ok.
Qed.

Lemma upload_file_success (env : Env) (w : World) (upload : UploadFile)
    (pages : list (option text)) (chunks : list Document) :
  let filepath := path_join UPLOAD_FOLDER (filename upload) in
  endswith (filename upload) (py ".pdf") = true →
  open_wb env filepath = None →
  copyfileobj_fault env (file upload) = None →
  pdf_pages env (file upload) = Ok (map Ok pages) →
  chunk_text (concat (map page_text pages)) = Ok chunks →
  from_documents env chunks = Ok () →
  (upload_file env w upload).2
  = Return {| message := py "File successfully uploaded and processed.";
              body_filename := filename upload;
              total_chunks := Z.of_nat (length chunks) |} ∧
  EvFromDocuments chunks ∈ trace (upload_file env w upload).1.
Proof.
  intros filepath Hext Hopen Hcopy Hpages Hchunks Hstore.
  unfold upload_file. rewrite Hext. cbn [negb]. fold filepath.
  unfold save_upload. rewrite Hopen, Hcopy.
  unfold process_upload.
  rewrite (extract_after_save env _ filepath (file upload) pages);
    [|apply lookup_insert_eq|done].
  unfold mbind, result_bind. rewrite Hchunks, Hstore.
  split; [done|]. cbn [fst emit trace].
  rewrite !elem_of_app, !list_elem_of_singleton. left. by right.
Qed.

(** ** How many windows *)

Section WindowsCount.
Variables size overlap : nat.
Hypothesis overlap_lt_size : (overlap < size)%nat.

(** The count is the ceiling of [(L - overlap) / (size - overlap)]. *)
Lemma windows_count (t : text) :
  (overlap < length t)%nat →
  let n := length (windows size overlap t) in
  (1 ≤ n)%nat ∧
  ((n - 1) * (size - overlap) + overlap < length t)%nat ∧
  (length t ≤ n * (size - overlap) + overlap)%nat.
Proof.
  remember (length t) as L eqn:HL. revert t HL.
  induction (lt_wf L) as [L _ IH]; intros t -> Hlen.
  destruct (decide (length t ≤ size)%nat) as [Hshort|Hlong].
  - rewrite windows_short; [|by destruct t; simpl in *; [lia|]|done].
    simpl. lia.
  - rewrite windows_long by lia. cbn [length].
    specialize (IH (length (drop (size - overlap) t))).
    rewrite length_drop in IH.
    destruct (IH ltac:(lia) _ ltac:(by rewrite length_drop) ltac:(lia))
      as (H1 & H2 & H3).
    set (n' := length (windows size overlap (drop (size - overlap) t))) in *.
    cbv zeta. nia.
Qed.
End WindowsCount.

Lemma map_page_content_doc (chunks : list text) :
  map page_content (map doc chunks) = chunks.
Proof. induction chunks as [|c chunks IH]; simpl; by rewrite ?IH. Qed.

(** ** The chunker: reconstruction *)


Lemma clean_letters (n : Z) : clean (letters n).
Proof.
  unfold letters. induction (Z.to_nat n) as [|k IH]; simpl; by constructor.
Qed.

(** ** The chunker: 5000 characters *)

(** C4, as the specification states it, fails: a document whose one page
    holds 4999 letters has an extracted text of 5000 characters (the page
    and its newline), and ingesting it gives [total_chunks = 6], not 5. *)
Lemma five_thousand_chars_give_six_chunks :
  (∃ raw_text,
      (extract_text_from_pdf page_4999_env world_with_report
         (py "temp_uploads/report.pdf")).2 = Ok raw_text ∧
      len raw_text = 5000) ∧
  (upload_file page_4999_env empty_world report_pdf).2
  = Return {| message := py "File successfully uploaded and processed.";
              body_filename := py "report.pdf";
              total_chunks := 6 |} ∧
  (∀ body, (upload_file page_4999_env empty_world report_pdf).2 = Return body →
           total_chunks body ≠ 5).
Proof.
  split; [|split].
  - exists (letters 4999 ++ [NL]). split; by vm_compute.
  - by vm_compute.
  - intros body H. vm_compute in H. injection H as <-. simpl. lia.
Qed.

(** C4 (amended): ingesting a document whose one page holds 4999
    characters, none of them whitespace, so that the extracted text is
    the 5000 characters of the page and its newline, yields
    [total_chunks = 6]; the six chunks handed to the vector store are the
    sliding windows of the page, and each adjacent pair shares 200
    characters: the last 200 of one are the first 200 of the next. *)
Theorem upload_file_5000_chars (env : Env) (w : World) (upload : UploadFile)
    (page : text) :
  let filepath := path_join UPLOAD_FOLDER (filename upload) in
  endswith (filename upload) (py ".pdf") = true →
  open_wb env filepath = None →
  copyfileobj_fault env (file upload) = None →
  pdf_pages env (file upload) = Ok [Ok (Some page)] →
  clean page →
  len page = 4999 →
  (∀ chunks, from_documents env chunks = Ok ()) →
  ∃ chunks : list Document,
    (upload_file env w upload).2
    = Return {| message := py "File successfully uploaded and processed.";
                body_filename := filename upload;
                total_chunks := 6 |} ∧
    EvFromDocuments chunks ∈ trace (upload_file env w upload).1 ∧
    length chunks = 6%nat ∧
    adjacent_overlap 200 (map page_content chunks).
Proof.
  intros filepath Hext Hopen Hcopy Hpages Hclean Hlen Hstore.
  assert (Hcount : length (windows 1000 200 page) = 6%nat).
  { pose proof (windows_count 1000 200 ltac:(lia) page) as Hc.
    unfold len in Hlen.
    destruct Hc as (H1 & H2 & H3); [lia|].
    set (n := length (windows 1000 200 page)) in *.
    replace (1000 - 200)%nat with 800%nat in * by lia. lia. }
  exists (map doc (windows 1000 200 page)).
  destruct (upload_file_success env w upload [Some page]
              (map doc (windows 1000 200 page)))
    as [Hbody Htrace]; try done.
  - destruct page as [|c page]; [done|].
    cbn [map page_text concat]. rewrite app_nil_r.
    by apply chunk_text_page.
  - rewrite length_map, Hcount in Hbody.
    split; [done|]. split; [done|]. split; [by rewrite length_map|].
    rewrite map_page_content_doc. apply adjacent_overlap_windows. lia.
Qed.

Lemma upload_file_5000_chars_witness :
  ∃ chunks : list Document,
    (upload_file page_4999_env empty_world report_pdf).2
    = Return {| message := py "File successfully uploaded and processed.";
                body_filename := filename report_pdf;
                total_chunks := 6 |} ∧
    EvFromDocuments chunks ∈ trace (upload_file page_4999_env empty_world report_pdf).1 ∧
    length chunks = 6%nat ∧
    adjacent_overlap 200 (map page_content chunks).
Proof.
  apply (upload_file_5000_chars page_4999_env empty_world report_pdf (letters 4999)).
  - reflexivity.
  - reflexivity.
  - reflexivity.
  - reflexivity.
  - apply (bool_decide_unpack _). vm_compute. exact I.
  - vm_compute. reflexivity.
  - reflexivity.
Defined.

(** ** The chunker: the empty text *)

(** C7: chunking the empty text gives no chunk, and an upload whose pages
    give no text succeeds with [total_chunks = 0], provided the file was
    saved and read and the vector store accepts the empty batch. *)
Theorem upload_file_no_text (env : Env) (w : World) (upload : UploadFile)
    (pages : list (option text)) :
  let filepath := path_join UPLOAD_FOLDER (filename upload) in
  endswith (filename upload) (py ".pdf") = true →
  open_wb env filepath = None →
  copyfileobj_fault env (file upload) = None →
  pdf_pages env (file upload) = Ok (map Ok pages) →
  concat (map page_text pages) = [] →
  from_documents env [] = Ok () →
  chunk_text [] = Ok [] ∧
  (upload_file env w upload).2
  = Return {| message := py "File successfully uploaded and processed.";
              body_filename := filename upload;
              total_chunks := 0 |}.
Proof.
  intros filepath Hext Hopen Hcopy Hpages Hempty Hstore.
  split; [done|].
  destruct (upload_file_success env w upload pages []) as [Hbody _]; try done.
  by rewrite Hempty.
Qed.

Lemma upload_file_no_text_witness :
  chunk_text [] = Ok [] ∧
  (upload_file (quiet_env [None; Some []]) empty_world report_pdf).2
  = Return {| message := py "File successfully uploaded and processed.";
              body_filename := filename report_pdf;
              total_chunks := 0 |}.
Proof.
  apply (upload_file_no_text (quiet_env [None; Some []]) empty_world report_pdf
           [None; Some []]); reflexivity.
Defined.

(** * Further properties of the code *)

(** ** Stripping *)

Module StripFacts.

Lemma head_ok_lstrip (s : text) : head_ok (lstrip s).
Proof.
  induction s as [|c s IH]; [done|].
  simpl. destruct (py_isspace c) eqn:Hc; [done|]. by simpl.
Qed.

Lemma lstrip_head_ok (s : text) : head_ok s → lstrip s = s.
Proof. destruct s as [|c s]; [done|]. simpl. by intros ->. Qed.

Lemma lstrip_suffix (s : text) : ∃ w, s = w ++ lstrip s.
Proof.
  induction s as [|c s [w IH]]; [by exists []|].
  simpl. destruct (py_isspace c).
  - exists (c :: w). simpl. by rewrite <- IH.
  - by exists [].
Qed.

Lemma rstrip_prefix (s : text) : ∃ w, s = rstrip s ++ w.
Proof.
  unfold rstrip. destruct (lstrip_suffix (rev s)) as [w Hw].
  exists (rev w). rewrite <- rev_app_distr, <- Hw. by rewrite rev_involutive.
Qed.

Lemma strip_substring (s : text) : substring (strip s) s.
Proof.
  unfold strip. destruct (lstrip_suffix s) as [a Ha].
  destruct (rstrip_prefix (lstrip s)) as [b Hb].
  exists a, b. by rewrite <- Hb.
Qed.

Lemma len_strip_le (s : text) : len (strip s) ≤ len s.
Proof.
  destruct (strip_substring s) as (a & b & H).
  apply (f_equal length) in H. rewrite !length_app in H. unfold len. lia.
Qed.

Lemma lstrip_snoc (y : text) (x : N) :
  py_isspace x = false → ∃ z, lstrip (y ++ [x]) = z ++ [x].
Proof.
  intros Hx. induction y as [|a y [z IH]].
  - exists []. simpl. by rewrite Hx.
  - simpl. destruct (py_isspace a); [by exists z|].
    by exists (a :: y).
Qed.

Lemma head_ok_rstrip (s : text) : head_ok s → head_ok (rstrip s).
Proof.
  destruct s as [|x s]; [done|]. simpl. intros Hx.
  unfold rstrip. simpl rev.
  destruct (lstrip_snoc (rev s) x Hx) as [z ->].
  by rewrite rev_app_distr.
Qed.

Lemma head_ok_strip (s : text) : head_ok (strip s).
Proof. apply head_ok_rstrip, head_ok_lstrip. Qed.

Lemma head_ok_rev_strip (s : text) : head_ok (rev (strip s)).
Proof.
  unfold strip, rstrip. rewrite rev_involutive. apply head_ok_lstrip.
Qed.

(** Stripping twice is stripping once. *)
Lemma strip_idemp (s : text) : strip (strip s) = strip s.
Proof.
  unfold strip at 1. rewrite (lstrip_head_ok _ (head_ok_strip s)).
  unfold rstrip. rewrite (lstrip_head_ok _ (head_ok_rev_strip s)).
  apply rev_involutive.
Qed.

(** A stripped, non-empty text starts with a character that is not
    whitespace. *)
Lemma stripped_head (c : text) : strip c = c → head_ok c.
Proof. intros <-. apply head_ok_strip. Qed.

Lemma strip_blank (s : text) : Forall (λ c, py_isspace c = true) s → strip s = [].
Proof.
  intros H. unfold strip.
  assert (Hl : lstrip s = []).
  { induction H as [|c s Hc _ IH]; [done|]. simpl. by rewrite Hc. }
  by rewrite Hl.
Qed.

Lemma substring_trans (a b c : text) : substring a b → substring b c → substring a c.
Proof.
  intros (a1 & a2 & ->) (b1 & b2 & ->).
  exists (b1 ++ a1), (a2 ++ b2). by rewrite <- !app_assoc.
Qed.

Lemma substring_refl (a : text) : substring a a.
Proof. exists [], []. by rewrite app_nil_r. Qed.

Lemma substring_elem (c : text) (x : N) (t : text) :
  substring (x :: c) t → x ∈ t.
Proof.
  intros (a & b & ->). rewrite elem_of_app. right. by left.
Qed.

Lemma substring_concat (a seg b : list text) :
  substring (concat seg) (concat (a ++ seg ++ b)).
Proof. exists (concat a), (concat b). by rewrite !concat_app. Qed.

Lemma substring_concat_elem (s : text) (l : list text) :
  s ∈ l → substring s (concat l).
Proof.
  intros (a & b & ->)%list_elem_of_split.
  exists (concat a), (concat b). by rewrite concat_app.
Qed.

Lemma lstrip_blank_prefix (s : text) :
  ∃ w, s = w ++ lstrip s ∧ Forall (λ c, py_isspace c = true) w.
Proof.
  induction s as [|c s (w & IH & Hw)]; [by exists []|].
  simpl. destruct (py_isspace c) eqn:Hc.
  - exists (c :: w). split; [simpl; by rewrite <- IH|by constructor].
  - by exists [].
Qed.

Lemma rstrip_blank_suffix (s : text) :
  ∃ w, s = rstrip s ++ w ∧ Forall (λ c, py_isspace c = true) w.
Proof.
  unfold rstrip. destruct (lstrip_blank_prefix (rev s)) as (w & Hw & Hblank).
  exists (rev w). split; [|by apply Forall_rev].
  rewrite <- rev_app_distr, <- Hw. by rewrite rev_involutive.
Qed.

(** Stripping removes whitespace only. *)
Lemma strip_keeps (s : text) (c : N) :
  py_isspace c = false → c ∈ s → c ∈ strip s.
Proof.
  intros Hc Hin. unfold strip.
  destruct (lstrip_blank_prefix s) as (a & Ha & Hblank_a).
  destruct (rstrip_blank_suffix (lstrip s)) as (b & Hb & Hblank_b).
  rewrite Ha, Hb in Hin.
  apply elem_of_app in Hin as [Hin|Hin].
  - apply (proj1 (Forall_forall _ _) Hblank_a) in Hin. congruence.
  - apply elem_of_app in Hin as [Hin|Hin]; [done|].
    apply (proj1 (Forall_forall _ _) Hblank_b) in Hin. congruence.
Qed.

End StripFacts.

(** ** What the splitter emits *)

Module SplitterChunks.
Import Splitter SplitterFacts SplitterWindows StripFacts.

Lemma join_nil_concat (l : list text) : join [] l = concat l.
Proof.
  induction l as [|a l IH]; [done|].
  destruct l as [|b l]; [simpl; by rewrite app_nil_r|].
  change (join [] (a :: b :: l)) with (a ++ [] ++ join [] (b :: l)).
  by rewrite IH.
Qed.

Lemma _join_docs_segment (cur : list text) (c : text) :
  _join_docs cur [] = Some c → c ≠ [] ∧ c = strip (concat cur).
Proof.
  unfold _join_docs. rewrite join_nil_concat.
  destruct (strip (concat cur)) as [|x s]; [done|].
  by intros [= <-].
Qed.

Lemma concat_snoc (cur : list text) (d : text) :
  len (concat (cur ++ [d])) = len (concat cur) + len d.
Proof. rewrite concat_app, len_app. simpl. by rewrite app_nil_r. Qed.

Lemma segment_chunk_weaken (size : Z) (pre all post : list text) (c : text) :
  segment_chunk size all c → segment_chunk size (pre ++ all ++ post) c.
Proof.
  intros (Hne & a & seg & b & -> & Hlen & ->). split; [done|].
  exists (pre ++ a), seg, (b ++ post). by rewrite <- !app_assoc.
Qed.

Lemma segment_chunk_text (size : Z) (all : list text) (t c : text) :
  substring (concat all) t → segment_chunk size all c → text_chunk size t c.
Proof.
  intros Hall (Hne & a & seg & b & -> & Hlen & ->).
  repeat split; [done|apply strip_idemp| |].
  - pose proof (len_strip_le (concat seg)). lia.
  - eapply substring_trans; [apply strip_substring|].
    eapply substring_trans; [apply substring_concat|done].
Qed.

Section Merge.
Variable cfg : config.

(** When the inner loop of [_merge_splits] stops, it has dropped splits
    from the front only, [total] still is the length of what is kept, and
    its guard is false. *)
Lemma pop_front_post (cur : list text) (_len : Z) (cur' : list text) (total' : Z) :
  pop_front cfg [] cur (len (concat cur)) _len = Ok (cur', total') →
  total' = len (concat cur') ∧ (∃ pre, cur = pre ++ cur') ∧
  keep_popping cfg [] cur' total' _len = false.
Proof.
  induction cur as [|d0 rest IH]; rewrite pop_front_eq.
  - destruct (keep_popping cfg [] [] _ _) eqn:Hkeep; [done|].
    intros [= <- <-]. split; [done|]. split; [by exists []|done].
  - destruct (keep_popping cfg [] (d0 :: rest) _ _) eqn:Hkeep.
    + replace (len (concat (d0 :: rest)) - len d0) with (len (concat rest))
        by (simpl; rewrite len_app; lia).
      intros H. destruct (IH H) as (Htotal & [pre ->] & Hstop).
      split; [done|]. split; [by exists (d0 :: pre)|done].
    + intros [= <- <-]. split; [done|]. split; [by exists []|done].
Qed.

Lemma keep_popping_stop (cur : list text) (total _len : Z) :
  keep_popping cfg [] cur total _len = false →
  total + _len ≤ chunk_size cfg ∨ total ≤ 0.
Proof.
  rewrite keep_popping_nil. intros H.
  apply orb_false_iff in H as [_ H]. apply andb_false_iff in H as [H|H];
    rewrite Z.gtb_ltb in H; apply Z.ltb_ge in H; lia.
Qed.

(** Every chunk [_merge_splits] emits is the stripped concatenation of
    consecutive splits that together fit the chunk size. *)
Lemma merge_loop_segments (all splits docs cur merged : list text) :
  (∃ pre, all = pre ++ cur ++ splits) →
  len (concat cur) ≤ chunk_size cfg →
  Forall (λ s, len s ≤ chunk_size cfg) splits →
  merge_loop cfg [] splits docs cur (len (concat cur)) = Ok merged →
  ∃ new, merged = docs ++ new ∧ Forall (segment_chunk (chunk_size cfg) all) new.
Proof.
  revert docs cur merged.
  induction splits as [|d splits IH]; intros docs cur merged [pre Hall] Hcur Hsplits.
  - simpl. intros [= <-]. eexists; split; [done|].
    destruct (_join_docs cur []) as [c|] eqn:Hjoin; [|by constructor].
    apply _join_docs_segment in Hjoin as [Hne Hc].
    apply Forall_singleton. split; [done|].
    exists pre, cur, []. by repeat split.
  - apply Forall_cons in Hsplits as [Hd Hsplits].
    rewrite merge_loop_cons.
    destruct ((_ >? _) && _) eqn:Hover.
    + destruct (pop_front cfg [] cur (len (concat cur)) (len d))
        as [[cur' total']|e] eqn:Hpop; [|done].
      apply pop_front_post in Hpop as (-> & [pre' ->] & Hstop).
      apply keep_popping_stop in Hstop.
      rewrite <- concat_snoc. intros Hrun.
      apply IH in Hrun as (new & -> & Hnew); [| |rewrite concat_snoc|done].
      * exists (option_list (_join_docs (pre' ++ cur') []) ++ new).
        split; [by rewrite <- app_assoc|].
        apply Forall_app. split; [|done].
        destruct (_join_docs (pre' ++ cur') []) as [c|] eqn:Hjoin; [|by constructor].
        apply _join_docs_segment in Hjoin as [Hne Hc].
        apply Forall_singleton. split; [done|].
        exists pre, (pre' ++ cur'), (d :: splits). by repeat split.
      * exists (pre ++ pre'). rewrite Hall. by rewrite <- !app_assoc.
      * pose proof (len_nonneg (concat cur')). lia.
    + rewrite <- concat_snoc. intros Hrun.
      apply IH in Hrun as (new & -> & Hnew); [by exists new| | |done].
      * exists pre. rewrite Hall. by rewrite <- !app_assoc.
      * rewrite concat_snoc.
        apply andb_false_iff in Hover as [Hover|Hover].
        -- rewrite Z.gtb_ltb in Hover. apply Z.ltb_ge in Hover. lia.
        -- apply Nat.ltb_ge in Hover. destruct cur; [|simpl in Hover; lia].
           change (len (concat [])) with 0. lia.
Qed.

Lemma flush_segments (final_chunks _good_splits out : list text) :
  Forall (λ s, len s ≤ chunk_size cfg) _good_splits →
  flush cfg final_chunks _good_splits = Ok out →
  ∃ new, out = final_chunks ++ new ∧
         Forall (segment_chunk (chunk_size cfg) _good_splits) new.
Proof.
  intros Hgood. unfold flush. destruct _good_splits as [|g good].
  - intros [= <-]. exists []. by rewrite app_nil_r.
  - unfold _merge_splits.
    destruct (merge_loop cfg [] (g :: good) [] [] 0) as [merged|e] eqn:Hrun; [|done].
    simpl. intros [= <-].
    change 0 with (len (concat [])) in Hrun.
    apply (merge_loop_segments (g :: good)) in Hrun as (new & -> & Hnew);
      [by exists new|by exists []| |done].
    pose proof (len_nonneg g). apply Forall_cons in Hgood as [Hg _].
    change (len (concat [])) with 0. lia.
Qed.

(** With room for everything nothing is emitted before the end. *)
Lemma merge_loop_fits (splits docs cur : list text) :
  len (concat cur) + len (concat splits) ≤ chunk_size cfg →
  merge_loop cfg [] splits docs cur (len (concat cur))
  = Ok (docs ++ option_list (_join_docs (cur ++ splits) [])).
Proof.
  revert cur. induction splits as [|d splits IH]; intros cur Hfit.
  - simpl. by rewrite app_nil_r.
  - simpl in Hfit. rewrite len_app in Hfit.
    pose proof (len_nonneg (concat splits)).
    rewrite merge_loop_cons.
    replace (len (concat cur) + len d >? chunk_size cfg) with false
      by (symmetry; rewrite Z.gtb_ltb; apply Z.ltb_ge; lia).
    simpl andb. cbn iota. rewrite <- concat_snoc.
    rewrite IH by (rewrite concat_snoc; lia).
    by rewrite <- app_assoc.
Qed.
End Merge.

(** *** Cutting at a separator loses nothing *)

Lemma re_split_skip (sep a rest cur : text) :
  re_split_go sep (a ++ rest) (length a) cur = re_split_go sep rest 0 cur.
Proof. induction a as [|x a IH]; [done|]. simpl. apply IH. Qed.

Lemma re_split_concat (sep : text) (n : nat) (t cur : text) :
  sep ≠ [] → (length t ≤ n)%nat →
  (re_split_go sep t 0 cur).1
    ++ concat (map (λ sp, sp.1 ++ sp.2) (re_split_go sep t 0 cur).2)
  = rev cur ++ t.
Proof.
  intros Hsep. revert t cur. induction n as [|n IH]; intros t cur Hn.
  - destruct t; [|simpl in Hn; lia]. simpl. by rewrite app_nil_r.
  - destruct t as [|c t']; [simpl; by rewrite app_nil_r|].
    cbn [re_split_go]. destruct (startswith (c :: t') sep) eqn:Hstart.
    + apply startswith_inv in Hstart as [q Hq].
      destruct sep as [|s0 sep']; [done|]. injection Hq as <- ->.
      replace (length (c :: sep') - 1)%nat with (length sep') by (simpl; lia).
      rewrite re_split_skip.
      assert (Hq : (length q ≤ n)%nat)
        by (simpl in Hn; rewrite length_app in Hn; lia).
      specialize (IH q [] Hq).
      destruct (re_split_go (c :: sep') q 0 []) as [piece more].
      simpl in *. by rewrite <- app_assoc, IH.
    + rewrite IH by (simpl in Hn; lia).
      simpl. by rewrite <- app_assoc.
Qed.

Lemma concat_filter_nonempty (l : list text) :
  concat (filter (λ s, s ≠ []) l) = concat l.
Proof.
  induction l as [|a l IH]; [done|].
  destruct (decide (a ≠ [])) as [Ha|Ha].
  - rewrite filter_cons_True by done. simpl. by rewrite IH.
  - rewrite filter_cons_False by done.
    apply dec_stable in Ha as ->. by rewrite IH.
Qed.

(** The pieces [_split_text_with_regex] returns, put together, are the
    text. *)
Lemma regex_concat (t separator : text) :
  concat (_split_text_with_regex t separator) = t.
Proof.
  unfold _split_text_with_regex. rewrite concat_filter_nonempty.
  destruct separator as [|s0 sep].
  - induction t as [|c t IH]; [done|]. simpl. by rewrite IH.
  - unfold re_split.
    pose proof (re_split_concat (s0 :: sep) (length t) t [] ltac:(done) ltac:(lia))
      as H.
    destruct (re_split_go (s0 :: sep) t 0 []) as [first more]. by simpl in *.
Qed.

Lemma elem_len_le (s : text) (l : list text) : s ∈ l → len s ≤ len (concat l).
Proof.
  intros (a & b & H)%substring_concat_elem.
  rewrite H, !len_app. pose proof (len_nonneg a). pose proof (len_nonneg b). lia.
Qed.

Section Split.
Variable cfg : config.

(** What [_split_text] returns when its loop runs on splits that are part
    of the text [t]: chunks of [t]. A split that is too long is handed to
    the recursion; there is none only when no split is too long. *)
Lemma split_loop_chunks (t : text) (recur : option (text → result (list text)))
    (splits final_chunks _good_splits out : list text) :
  substring (concat (_good_splits ++ splits)) t →
  Forall (λ s, len s ≤ chunk_size cfg) _good_splits →
  (∀ f, recur = Some f →
        ∀ s chunks, f s = Ok chunks → Forall (text_chunk (chunk_size cfg) s) chunks) →
  (recur = None → Forall (λ s, len s < chunk_size cfg) splits) →
  split_loop cfg recur splits final_chunks _good_splits = Ok out →
  ∃ new, out = final_chunks ++ new ∧ Forall (text_chunk (chunk_size cfg) t) new.
Proof.
  intros Hpart Hgood Hrecur Hnone. revert final_chunks _good_splits Hpart Hgood.
  induction splits as [|s splits IH]; intros fc good Hpart Hgood; simpl.
  - rewrite app_nil_r in Hpart. intros Hrun.
    apply flush_segments in Hrun as (new & -> & Hnew); [|done].
    exists new. split; [done|].
    eapply Forall_impl; [done|]. intros c. by apply segment_chunk_text.
  - destruct (len s <? chunk_size cfg) eqn:Hs.
    + apply IH.
      * intros ->. specialize (Hnone eq_refl). by apply Forall_cons in Hnone as [_ ?].
      * by rewrite <- app_assoc.
      * apply Forall_app. split; [done|]. apply Forall_singleton.
        apply Z.ltb_lt in Hs. lia.
    + destruct (flush cfg fc good) as [fc'|e] eqn:Hflush; [|done]. simpl.
      apply flush_segments in Hflush as (new1 & -> & Hnew1); [|done].
      assert (Hgood_part : substring (concat good) t).
      { apply (substring_trans _ (concat (good ++ s :: splits))); [|done].
        exists [], (concat (s :: splits)). by rewrite concat_app. }
      assert (Hs_part : substring s t).
      { apply (substring_trans _ (concat (good ++ s :: splits))); [|done].
        exists (concat good), (concat splits). by rewrite concat_app. }
      assert (Hrest_part : substring (concat ([] ++ splits)) t).
      { apply (substring_trans _ (concat (good ++ s :: splits))); [|done].
        exists (concat good ++ s), []. rewrite concat_app. simpl.
        by rewrite app_nil_r, <- app_assoc. }
      assert (Hnew1' : Forall (text_chunk (chunk_size cfg) t) new1).
      { eapply Forall_impl; [done|]. intros c. by apply segment_chunk_text. }
      destruct recur as [f|].
      * destruct (f s) as [other|e] eqn:Hf; [|done]. simpl. intros Hrun.
        apply IH in Hrun as (new2 & -> & Hnew2); [| |done|done].
        -- exists (new1 ++ other ++ new2). split; [by rewrite <- !app_assoc|].
           rewrite !Forall_app. split; [done|]. split; [|done].
           eapply Forall_impl; [by eapply Hrecur|].
           intros c (Hne & Hstrip & Hlen & Hsub). repeat split; try done.
           by eapply substring_trans.
        -- done.
      * specialize (Hnone eq_refl). apply Forall_cons in Hnone as [Hlt _].
        apply Z.ltb_ge in Hs. lia.
Qed.

Hypothesis size_gt_1 : 1 < chunk_size cfg.

(** With the empty separator last in the list, everything [_split_text]
    returns is a chunk of the text. *)
Lemma _split_text_chunks (separators : list text) (t : text) (out : list text) :
  last separators = Some [] →
  _split_text cfg separators t = Ok out →
  Forall (text_chunk (chunk_size cfg) t) out.
Proof.
  revert t out. induction separators as [|_s rest IH]; intros t out Hlast; [done|].
  destruct _s as [|c _s].
  - rewrite _split_text_empty. intros Hrun.
    apply (split_loop_chunks t) in Hrun as (new & -> & Hnew); [done| |done|done|].
    + simpl. rewrite regex_concat. apply substring_refl.
    + intros _. rewrite regex_chars. unfold chars.
      apply Forall_map, Forall_true. intros x. by simpl.
  - destruct rest as [|r rest]; [done|].
    assert (Hlast' : last (r :: rest) = Some []) by done.
    destruct (contains t (c :: _s)) eqn:Hfound.
    + rewrite _split_text_found by done. intros Hrun.
      apply (split_loop_chunks t) in Hrun as (new & -> & Hnew); [done| |done| |done].
      * simpl. rewrite regex_concat. apply substring_refl.
      * intros f [= <-] s chunks Hf. by apply IH.
    + rewrite _split_text_skip by done. by apply IH.
Qed.

(** A text shorter than the chunk size is one chunk, stripped; none when
    nothing but whitespace is in it. *)
Lemma split_loop_short (recur : option (text → result (list text)))
    (t separator : text) :
  len t < chunk_size cfg →
  split_loop cfg recur (_split_text_with_regex t separator) [] []
  = Ok (option_list (_join_docs [t] [])).
Proof.
  intros Hshort.
  pose proof (regex_concat t separator) as Hcat.
  rewrite split_loop_all_good.
  - unfold flush. cbn [app].
    destruct (_split_text_with_regex t separator) as [|g good] eqn:Hsplits.
    + simpl in Hcat. by subst t.
    + unfold _merge_splits. change 0 with (len (concat [])).
      rewrite merge_loop_fits
        by (rewrite Hcat; change (len (concat [])) with 0; lia).
      simpl. unfold _join_docs. rewrite !join_nil_concat, Hcat.
      simpl. by rewrite app_nil_r.
  - apply Forall_forall. intros s Hs. apply elem_len_le in Hs.
    rewrite Hcat in Hs. lia.
Qed.

Lemma _split_text_short (separators : list text) (t : text) :
  separators ≠ [] → len t < chunk_size cfg →
  _split_text cfg separators t = Ok (option_list (_join_docs [t] [])).
Proof.
  intros Hne Hshort. rewrite _split_text_pick by done.
  destruct (pick_separator _ _ _) as [separator new_separators].
  by apply split_loop_short.
Qed.
End Split.

End SplitterChunks.

(** ** The chunker: what every chunk looks like *)

Lemma chunk_text_chunks (raw_text : text) :
  ∃ chunks, chunk_text raw_text = Ok (map doc chunks) ∧
            Forall (text_chunk 1000 raw_text) chunks.
Proof.
  unfold chunk_text, create_documents, Splitter.split_text.
  cbn [Splitter.separators splitter_config].
  destruct (SplitterFacts._split_text_ok splitter_config ltac:(done)
              [[NL; NL]; [NL]; [SP]; []] raw_text ltac:(done)) as [chunks Hrun].
  rewrite Hrun. exists chunks. split; [simpl; by rewrite app_nil_r|].
  by apply (SplitterChunks._split_text_chunks splitter_config ltac:(done)
              [[NL; NL]; [NL]; [SP]; []]).
Qed.

(** X1: the chunker never raises, and no chunk it returns is longer than
    1000 characters, whatever the text (also when a single word is longer
    than that). *)
Theorem chunk_text_chunk_size (raw_text : text) :
  ∃ chunks, chunk_text raw_text = Ok chunks ∧
            Forall (λ d, len (page_content d) ≤ 1000) chunks.
Proof.
  destruct (chunk_text_chunks raw_text) as (chunks & -> & Hall).
  eexists; split; [done|]. apply Forall_map.
  eapply Forall_impl; [done|]. by intros c (_ & _ & Hlen & _).
Qed.

(** X2: no chunk is empty, no chunk starts or ends with a whitespace
    character, and every chunk carries empty metadata. *)
Theorem chunk_text_chunks_stripped (raw_text : text) :
  ∃ chunks, chunk_text raw_text = Ok chunks ∧
            Forall (λ d, page_content d ≠ [] ∧
                         head_ok (page_content d) ∧
                         head_ok (rev (page_content d)) ∧
                         metadata d = []) chunks.
Proof.
  destruct (chunk_text_chunks raw_text) as (chunks & -> & Hall).
  eexists; split; [done|]. apply Forall_map.
  eapply Forall_impl; [done|]. intros c (Hne & Hstrip & _ & _). simpl.
  split; [done|]. rewrite <- Hstrip.
  split; [apply StripFacts.head_ok_strip|].
  split; [apply StripFacts.head_ok_rev_strip|done].
Qed.

(** X3: every chunk is a contiguous piece of the input text: the chunker
    adds no character and reorders none. *)
Theorem chunk_text_chunks_substrings (raw_text : text) :
  ∃ chunks, chunk_text raw_text = Ok chunks ∧
            Forall (λ d, substring (page_content d) raw_text) chunks.
Proof.
  destruct (chunk_text_chunks raw_text) as (chunks & -> & Hall).
  eexists; split; [done|]. apply Forall_map.
  eapply Forall_impl; [done|]. by intros c (_ & _ & _ & Hsub).
Qed.

Lemma chunk_text_of_blank (raw_text : text) :
  Forall (λ c, py_isspace c = true) raw_text →
  chunk_text raw_text = Ok [].
Proof.
  intros Hblank.
  destruct (chunk_text_chunks raw_text) as (chunks & -> & Hall).
  destruct Hall as [|c chunks (Hne & Hstrip & _ & Hsub) _]; [done|].
  exfalso. apply StripFacts.stripped_head in Hstrip.
  destruct c as [|x c]; [done|]. simpl in Hstrip.
  apply StripFacts.substring_elem in Hsub.
  apply (proj1 (Forall_forall _ _) Hblank) in Hsub. congruence.
Qed.

(** X4: a text of whitespace only, of any length, gives no chunk. *)
Theorem chunk_text_blank (raw_text : text) :
  Forall (λ c, py_isspace c = true) raw_text →
  chunk_text raw_text = Ok [].
Proof. apply chunk_text_of_blank. Qed.

Lemma chunk_text_blank_witness :
  chunk_text (py "   " ++ [NL; NL; 9%N] ++ py "  ") = Ok [].
Proof.
  apply (chunk_text_blank (py "   " ++ [NL; NL; 9%N] ++ py "  ")).
  apply (bool_decide_unpack _). vm_compute. exact I.
Defined.

Lemma chunk_text_short_eq (raw_text : text) :
  len raw_text < 1000 →
  chunk_text raw_text
  = Ok (if decide (strip raw_text = []) then [] else [doc (strip raw_text)]).
Proof.
  intros Hshort. unfold chunk_text, create_documents, Splitter.split_text.
  rewrite (SplitterChunks._split_text_short splitter_config) by done.
  unfold Splitter._join_docs. cbn [join].
  destruct (strip raw_text) as [|x s] eqn:Hs; rewrite ?decide_True by done;
    [done|].
  by rewrite decide_False.
Qed.

(** ** The chunker: reconstruction, as the code does it *)


(** Why C2 cannot be kept for longer texts with whitespace inside: there
    the chunks are cut at the whitespace and overlap by whole pieces,
    not by 200 characters. 600 letters, a space and 600 letters come
    back as two chunks of 600 letters that share nothing, and dropping
    200 characters of the second loses them. *)
Lemma spaced_text_not_reconstructed :
  chunk_text spaced_letters = Ok [doc (letters 600); doc (letters 600)] ∧
  strip spaced_letters = spaced_letters ∧
  reconstruct 200 [letters 600; letters 600] ≠ spaced_letters.
Proof.
  split; [by vm_compute|]. split; [by vm_compute|].
  intros H. apply (f_equal length) in H. vm_compute in H. discriminate H.
Qed.



(** X5: a text of fewer than 1000 characters is returned as one chunk,
    the text without the whitespace at its ends, whatever separators it
    holds; when it is blank no chunk is returned. *)
Theorem chunk_text_short (raw_text : text) :
  len raw_text < 1000 →
  chunk_text raw_text
  = Ok (if decide (strip raw_text = []) then [] else [doc (strip raw_text)]).
Proof. apply chunk_text_short_eq. Qed.

Lemma chunk_text_short_witness :
  chunk_text (py "  The capital of France" ++ [NL; NL] ++ py "is Paris. ")
  = Ok (if decide (strip (py "  The capital of France" ++ [NL; NL] ++ py "is Paris. ") = [])
        then []
        else [doc (strip (py "  The capital of France" ++ [NL; NL] ++ py "is Paris. "))]).
Proof.
  apply (chunk_text_short (py "  The capital of France" ++ [NL; NL] ++ py "is Paris. ")).
  vm_compute. reflexivity.
Defined.

Section WindowsFull.
Variables size overlap : nat.
Hypothesis overlap_lt_size : (overlap < size)%nat.

(** Every window but the last is full. *)
Lemma windows_full (t : text) (i : nat) (c : text) :
  windows size overlap t !! i = Some c →
  (S i < length (windows size overlap t))%nat →
  length c = size.
Proof.
  remember (length t) as n eqn:Hn. revert t Hn i.
  induction (lt_wf n) as [n _ IH]; intros t -> i.
  destruct (decide (length t ≤ size)%nat) as [Hshort|Hlong].
  - destruct t as [|x t]; [done|].
    rewrite windows_short; [|done|done]. simpl. lia.
  - rewrite windows_long by lia. destruct i as [|i]; simpl.
    + intros [= <-] _. rewrite length_take. lia.
    + intros Hc Hi.
      apply (IH (length (drop (size - overlap) t))) with (t := drop (size - overlap) t) (i := i);
        [rewrite length_drop; lia|done|done|lia].
Qed.
End WindowsFull.

(** X6: for a text without whitespace and longer than 200 characters the
    number [n] of chunks is the ceiling of [(L - 200) / 800]:
    [(n - 1) * 800 + 200 < L ≤ n * 800 + 200]. *)
Theorem chunk_text_clean_count (raw_text : text) :
  clean raw_text → 200 < len raw_text →
  ∃ chunks, chunk_text raw_text = Ok chunks ∧
            (Z.of_nat (length chunks) - 1) * 800 + 200 < len raw_text ∧
            len raw_text ≤ Z.of_nat (length chunks) * 800 + 200.
Proof.
  intros Hclean Hlen. eexists. split; [by apply chunk_text_clean|].
  rewrite length_map. unfold len in *.
  destruct (windows_count 1000 200 ltac:(lia) raw_text ltac:(lia))
    as (H1 & H2 & H3).
  set (n := length (windows 1000 200 raw_text)) in *.
  replace (1000 - 200)%nat with 800%nat in * by lia. lia.
Qed.

Lemma chunk_text_clean_count_witness :
  ∃ chunks, chunk_text (letters 2500) = Ok chunks ∧
            (Z.of_nat (length chunks) - 1) * 800 + 200 < len (letters 2500) ∧
            len (letters 2500) ≤ Z.of_nat (length chunks) * 800 + 200.
Proof.
  apply (chunk_text_clean_count (letters 2500)).
  - apply (bool_decide_unpack _). vm_compute. exact I.
  - vm_compute. reflexivity.
Defined.

(** X7: for a text without whitespace, of any length, every chunk but
    the last has exactly 1000 characters and each adjacent pair of chunks
    shares 200 characters: the last 200 of one are the first 200 of the
    next. *)
Theorem chunk_text_clean_overlap (raw_text : text) :
  clean raw_text →
  ∃ chunks, chunk_text raw_text = Ok chunks ∧
            adjacent_overlap 200 (map page_content chunks) ∧
            ∀ (i : nat) (d : Document),
              chunks !! i = Some d → (S i < length chunks)%nat →
              len (page_content d) = 1000.
Proof.
  intros Hclean. eexists. split; [by apply chunk_text_clean|].
  rewrite map_page_content_doc. split; [apply adjacent_overlap_windows; lia|].
  intros i d Hd Hi. rewrite length_map in Hi.
  rewrite list_lookup_fmap in Hd.
  destruct (windows 1000 200 raw_text !! i) as [c|] eqn:Hc; [|done].
  injection Hd as <-. simpl. unfold len.
  rewrite (windows_full 1000 200 ltac:(lia) raw_text i c Hc Hi). lia.
Qed.

Lemma chunk_text_clean_overlap_witness :
  ∃ chunks, chunk_text (letters 2500) = Ok chunks ∧
            adjacent_overlap 200 (map page_content chunks) ∧
            ∀ (i : nat) (d : Document),
              chunks !! i = Some d → (S i < length chunks)%nat →
              len (page_content d) = 1000.
Proof.
  apply (chunk_text_clean_overlap (letters 2500)).
  apply (bool_decide_unpack _). vm_compute. exact I.
Defined.

(** ** The extractor: failures and the shape of the text *)

Lemma read_pages_raise (before : list (option text)) (e : exn)
    (after : list (result (option text))) (text_content : text) :
  read_pages (map Ok before ++ Raise e :: after) text_content = Raise e.
Proof.
  revert text_content. induction before as [|p before IH]; intros acc; [done|].
  simpl. unfold mbind, result_bind. apply IH.
Qed.

(** X8: when a page fails to give its text, the extractor raises
    [Failed to read PDF text: ] followed by the cause; the text of the
    pages before it is dropped and the pages after it are not read. *)
Theorem extract_text_from_pdf_page_failure
    (env : Env) (w : World) (filepath : text) (data : list byte)
    (before : list (option text)) (e : exn) (after : list (result (option text))) :
  fs w !! filepath = Some data →
  pdf_pages env data = Ok (map Ok before ++ Raise e :: after) →
  (extract_text_from_pdf env w filepath).2
  = Raise (Exception (py "Failed to read PDF text: " ++ str_exn e)).
Proof.
  intros Hfile Hpages. unfold extract_text_from_pdf. cbn [emit fs snd].
  rewrite Hfile. unfold mbind, result_bind. rewrite Hpages.
  by rewrite read_pages_raise.
Qed.

Lemma extract_text_from_pdf_page_failure_witness :
  (extract_text_from_pdf
     (service_env (Ok [Ok (Some (py "Page one")); Raise (Exception (py "bad xref"));
                       Ok (Some (py "Page three"))])
        (Ok ()) (Ok []) (Ok []))
     world_with_report (py "temp_uploads/report.pdf")).2
  = Raise (Exception (py "Failed to read PDF text: " ++ str_exn (Exception (py "bad xref")))).
Proof.
  apply (extract_text_from_pdf_page_failure _ world_with_report
           (py "temp_uploads/report.pdf") pdf_magic
           [Some (py "Page one")] (Exception (py "bad xref"))
           [Ok (Some (py "Page three"))]).
  - vm_compute. reflexivity.
  - reflexivity.
Defined.

(** X9: whatever makes the extractor fail (a missing file, a file the
    reader rejects, a page that raises), the exception it raises has a
    message that starts with [Failed to read PDF text: ]. *)
Theorem extract_text_from_pdf_wraps_errors
    (env : Env) (w : World) (filepath : text) (e : exn) :
  (extract_text_from_pdf env w filepath).2 = Raise e →
  ∃ cause, str_exn e = py "Failed to read PDF text: " ++ cause.
Proof.
  unfold extract_text_from_pdf, rewrap. cbn [snd].
  destruct (match fs _ !! filepath with None => _ | Some _ => _ end)
    as [t|cause]; [done|].
  intros [= <-]. by exists (str_exn cause).
Qed.

Lemma extract_text_from_pdf_wraps_errors_witness :
  ∃ cause,
    str_exn (Exception (py "Failed to read PDF text: "
                          ++ py "[Errno 2] No such file or directory"))
    = py "Failed to read PDF text: " ++ cause.
Proof.
  apply (extract_text_from_pdf_wraps_errors (quiet_env []) empty_world
           (py "temp_uploads/missing.pdf")).
  vm_compute. reflexivity.
Defined.

Lemma page_texts_newline (pages : list (option text)) :
  concat (map page_text pages) = [] ∨
  ∃ body, concat (map page_text pages) = body ++ [NL].
Proof.
  induction pages as [|p pages IH]; [by left|].
  simpl. destruct IH as [->|[body ->]].
  - rewrite app_nil_r. destruct p as [[|c t]|]; [by left| |by left].
    right. by exists (c :: t).
  - right. exists (page_text p ++ body). by rewrite <- app_assoc.
Qed.

Lemma page_texts_nil (pages : list (option text)) :
  concat (map page_text pages) = [] ↔ Forall (λ p, truthy p = false) pages.
Proof.
  induction pages as [|p pages IH]; [done|].
  simpl. rewrite Forall_cons. split.
  - intros [Hp Hrest]%app_eq_nil. split; [|by apply IH].
    by destruct p as [[|c t]|].
  - intros [Hp Hrest]. rewrite (proj2 IH Hrest), app_nil_r.
    by destruct p as [[|c t]|].
Qed.

(** X10: when every page gives its text, the extracted text is empty
    exactly when no page has text, and otherwise ends with a newline. *)
Theorem extract_text_from_pdf_shape
    (env : Env) (w : World) (filepath : text) (data : list byte)
    (pages : list (option text)) :
  fs w !! filepath = Some data →
  pdf_pages env data = Ok (map Ok pages) →
  ∃ raw_text,
    (extract_text_from_pdf env w filepath).2 = Ok raw_text ∧
    (raw_text = [] ↔ Forall (λ p, truthy p = false) pages) ∧
    (raw_text = [] ∨ ∃ body, raw_text = body ++ [NL]).
Proof.
  intros Hfile Hpages. exists (concat (map page_text pages)).
  rewrite (extract_after_save env w filepath data pages) by done.
  split; [done|]. split; [apply page_texts_nil|apply page_texts_newline].
Qed.

Lemma extract_text_from_pdf_shape_witness :
  ∃ raw_text,
    (extract_text_from_pdf (quiet_env [None; Some (py "Page two")])
       world_with_report (py "temp_uploads/report.pdf")).2 = Ok raw_text ∧
    (raw_text = [] ↔
     Forall (λ p, truthy p = false) [None; Some (py "Page two")]) ∧
    (raw_text = [] ∨ ∃ body, raw_text = body ++ [NL]).
Proof.
  apply (extract_text_from_pdf_shape (quiet_env [None; Some (py "Page two")])
           world_with_report (py "temp_uploads/report.pdf") pdf_magic
           [None; Some (py "Page two")]).
  - vm_compute. reflexivity.
  - reflexivity.
Defined.

(** ** Upload: the failure paths *)

Lemma save_upload_ok (env : Env) (w : World) (filepath : text) (data : list byte) :
  open_wb env filepath = None →
  copyfileobj_fault env data = None →
  save_upload env w filepath data
  = (emit (EvCopy filepath data)
       (write_file filepath data (emit (EvOpenWrite filepath) w)), None).
Proof. intros Hopen Hcopy. unfold save_upload. by rewrite Hopen, Hcopy. Qed.

(** X11: when the saved file cannot be read as a PDF the handler raises
    status 500 with [Failed to read PDF text: ] and the cause; it has
    written the file, closed the stream and opened the file, and nothing
    else: nothing is printed and the vector store is not called. *)
Theorem upload_file_extraction_failure
    (env : Env) (w : World) (upload : UploadFile) (e : exn) :
  let filepath := path_join UPLOAD_FOLDER (filename upload) in
  endswith (filename upload) (py ".pdf") = true →
  open_wb env filepath = None →
  copyfileobj_fault env (file upload) = None →
  pdf_pages env (file upload) = Raise e →
  (upload_file env w upload).2
  = HTTPException 500 (py "Failed to read PDF text: " ++ str_exn e) ∧
  trace (upload_file env w upload).1
  = trace w ++ [EvOpenWrite filepath; EvCopy filepath (file upload);
                EvClose; EvOpenRead filepath].
Proof.
  intros filepath Hext Hopen Hcopy Hpages.
  unfold upload_file. rewrite Hext. cbn [negb]. fold filepath.
  rewrite save_upload_ok by done.
  unfold process_upload, extract_text_from_pdf.
  cbn [emit fs close_upload write_file]. rewrite lookup_insert_eq.
  unfold mbind, result_bind. rewrite Hpages. cbn.
  split; [done|]. by rewrite <- !app_assoc.
Qed.

Lemma upload_file_extraction_failure_witness :
  let env := service_env (Raise (Exception (py "EOF marker not found")))
               (Ok ()) (Ok []) (Ok []) in
  let filepath := path_join UPLOAD_FOLDER (filename report_pdf) in
  (upload_file env empty_world report_pdf).2
  = HTTPException 500 (py "Failed to read PDF text: "
                         ++ str_exn (Exception (py "EOF marker not found"))) ∧
  trace (upload_file env empty_world report_pdf).1
  = trace empty_world ++ [EvOpenWrite filepath; EvCopy filepath (file report_pdf);
                          EvClose; EvOpenRead filepath].
Proof.
  apply (upload_file_extraction_failure
           (service_env (Raise (Exception (py "EOF marker not found")))
              (Ok ()) (Ok []) (Ok []))
           empty_world report_pdf (Exception (py "EOF marker not found")));
    reflexivity.
Defined.

(** X12: when the vector store (or the embedding behind it) fails, the
    handler raises status 500 with the text of that exception; the first
    log line has been printed, the second has not, and the saved file is
    still on disk. *)
Theorem upload_file_store_failure
    (env : Env) (w : World) (upload : UploadFile)
    (pages : list (option text)) (chunks : list Document) (e : exn) :
  let filepath := path_join UPLOAD_FOLDER (filename upload) in
  endswith (filename upload) (py ".pdf") = true →
  open_wb env filepath = None →
  copyfileobj_fault env (file upload) = None →
  pdf_pages env (file upload) = Ok (map Ok pages) →
  chunk_text (concat (map page_text pages)) = Ok chunks →
  from_documents env chunks = Raise e →
  (upload_file env w upload).2 = HTTPException 500 (str_exn e) ∧
  trace (upload_file env w upload).1
  = trace w ++ [EvOpenWrite filepath; EvCopy filepath (file upload);
                EvClose; EvOpenRead filepath;
                EvPrint (py "INFO: Created "
                           ++ str_int (Z.of_nat (length chunks))
                           ++ py " total chunks. Generating vectors...");
                EvFromDocuments chunks] ∧
  fs (upload_file env w upload).1 !! filepath = Some (file upload).
Proof.
  intros filepath Hext Hopen Hcopy Hpages Hchunks Hstore.
  unfold upload_file. rewrite Hext. cbn [negb]. fold filepath.
  rewrite save_upload_ok by done.
  unfold process_upload.
  rewrite (extract_after_save env _ filepath (file upload) pages);
    [|apply lookup_insert_eq|done].
  unfold mbind, result_bind. rewrite Hchunks, Hstore.
  cbn [fst snd emit trace fs close_upload write_file].
  split; [done|]. split; [by rewrite <- !app_assoc|apply lookup_insert_eq].
Qed.

Lemma upload_file_store_failure_witness :
  let env := service_env (Ok [Ok (Some (py "hello"))])
               (Raise (Exception (py "429 quota exceeded"))) (Ok []) (Ok []) in
  let filepath := path_join UPLOAD_FOLDER (filename report_pdf) in
  (upload_file env empty_world report_pdf).2
  = HTTPException 500 (str_exn (Exception (py "429 quota exceeded"))) ∧
  trace (upload_file env empty_world report_pdf).1
  = trace empty_world ++
    [EvOpenWrite filepath; EvCopy filepath (file report_pdf);
     EvClose; EvOpenRead filepath;
     EvPrint (py "INFO: Created "
                ++ str_int (Z.of_nat (length [doc (py "hello")]))
                ++ py " total chunks. Generating vectors...");
     EvFromDocuments [doc (py "hello")]] ∧
  fs (upload_file env empty_world report_pdf).1 !! filepath
  = Some (file report_pdf).
Proof.
  apply (upload_file_store_failure
           (service_env (Ok [Ok (Some (py "hello"))])
              (Raise (Exception (py "429 quota exceeded"))) (Ok []) (Ok []))
           empty_world report_pdf [Some (py "hello")] [doc (py "hello")]
           (Exception (py "429 quota exceeded")));
    reflexivity.
Defined.

(** X13: when the temporary file cannot be opened for writing, the
    handler raises status 500 with [Could not save file: ] and the cause,
    leaves the disk as it was, and does nothing after closing the
    stream. *)
Theorem upload_file_open_failure
    (env : Env) (w : World) (upload : UploadFile) (e : exn) :
  let filepath := path_join UPLOAD_FOLDER (filename upload) in
  endswith (filename upload) (py ".pdf") = true →
  open_wb env filepath = Some e →
  (upload_file env w upload).2
  = HTTPException 500 (py "Could not save file: " ++ str_exn e) ∧
  fs (upload_file env w upload).1 = fs w ∧
  trace (upload_file env w upload).1 = trace w ++ [EvOpenWrite filepath; EvClose].
Proof.
  intros filepath Hext Hopen.
  unfold upload_file. rewrite Hext. cbn [negb]. fold filepath.
  unfold save_upload. rewrite Hopen. cbn.
  split; [done|]. split; [done|]. by rewrite <- app_assoc.
Qed.

Lemma upload_file_open_failure_witness :
  let filepath := path_join UPLOAD_FOLDER (filename report_pdf) in
  (upload_file readonly_env world_with_report report_pdf).2
  = HTTPException 500 (py "Could not save file: "
                         ++ str_exn (Exception (py "[Errno 13] Permission denied"))) ∧
  fs (upload_file readonly_env world_with_report report_pdf).1
  = fs world_with_report ∧
  trace (upload_file readonly_env world_with_report report_pdf).1
  = trace world_with_report ++ [EvOpenWrite filepath; EvClose].
Proof.
  apply (upload_file_open_failure readonly_env world_with_report report_pdf
           (Exception (py "[Errno 13] Permission denied")));
    reflexivity.
Defined.

(** X14: when copying the upload fails part way, the handler raises
    status 500 with [Could not save file: ] and the cause, and the
    truncated file stays on disk with the bytes written so far; the
    file is not read back and the vector store is not called. *)
Theorem upload_file_copy_failure
    (env : Env) (w : World) (upload : UploadFile) (n : nat) (e : exn) :
  let filepath := path_join UPLOAD_FOLDER (filename upload) in
  endswith (filename upload) (py ".pdf") = true →
  open_wb env filepath = None →
  copyfileobj_fault env (file upload) = Some (n, e) →
  (upload_file env w upload).2
  = HTTPException 500 (py "Could not save file: " ++ str_exn e) ∧
  fs (upload_file env w upload).1 !! filepath = Some (take n (file upload)) ∧
  trace (upload_file env w upload).1
  = trace w ++ [EvOpenWrite filepath; EvCopy filepath (take n (file upload));
                EvClose].
Proof.
  intros filepath Hext Hopen Hcopy.
  unfold upload_file. rewrite Hext. cbn [negb]. fold filepath.
  unfold save_upload. rewrite Hopen, Hcopy. cbn.
  split; [done|]. split; [apply lookup_insert_eq|by rewrite <- !app_assoc].
Qed.

Lemma upload_file_copy_failure_witness :
  let filepath := path_join UPLOAD_FOLDER (filename report_pdf) in
  (upload_file disk_full_env empty_world report_pdf).2
  = HTTPException 500 (py "Could not save file: "
                         ++ str_exn (Exception (py "[Errno 28] No space left on device"))) ∧
  fs (upload_file disk_full_env empty_world report_pdf).1 !! filepath
  = Some (take 2 (file report_pdf)) ∧
  trace (upload_file disk_full_env empty_world report_pdf).1
  = trace empty_world ++
    [EvOpenWrite filepath; EvCopy filepath (take 2 (file report_pdf)); EvClose].
Proof.
  apply (upload_file_copy_failure disk_full_env empty_world report_pdf 2
           (Exception (py "[Errno 28] No space left on device")));
    reflexivity.
Defined.

(** ** Upload: what a success means, and what is left alone *)

Lemma process_upload_ok_inv (env : Env) (w w' : World) (filepath : text)
    (chunks : list Document) :
  process_upload env w filepath = (w', Ok chunks) →
  (∃ raw_text, (extract_text_from_pdf env w filepath).2 = Ok raw_text ∧
               chunk_text raw_text = Ok chunks) ∧
  from_documents env chunks = Ok () ∧
  EvFromDocuments chunks ∈ trace w'.
Proof.
  unfold process_upload.
  destruct (extract_text_from_pdf env w filepath) as [w1 [raw_text|e]]; [|done].
  cbn [mbind result_bind snd].
  destruct (chunk_text raw_text) as [document_chunks|e] eqn:Hchunks; [|done].
  destruct (from_documents env document_chunks) as [[]|e] eqn:Hstore; [|done].
  intros [= <- <-]. split; [by exists raw_text|]. split; [done|].
  cbn [emit trace]. rewrite !elem_of_app, !list_elem_of_singleton. left. by right.
Qed.

(** X15: a returned body (status 200) means all of this happened: the
    file name ends in [.pdf], the uploaded bytes are on disk under the
    temporary path, the stream is closed, and the vector store accepted a
    batch of exactly [total_chunks] chunks, the chunks of some extracted
    text; the body names the uploaded file. *)
Theorem upload_file_ok_inv (env : Env) (w : World) (upload : UploadFile)
    (body : upload_body) :
  (upload_file env w upload).2 = Return body →
  endswith (filename upload) (py ".pdf") = true ∧
  body_filename body = filename upload ∧
  fs (upload_file env w upload).1 !! path_join UPLOAD_FOLDER (filename upload)
  = Some (file upload) ∧
  upload_closed (upload_file env w upload).1 = true ∧
  ∃ raw_text chunks,
    chunk_text raw_text = Ok chunks ∧
    total_chunks body = Z.of_nat (length chunks) ∧
    from_documents env chunks = Ok () ∧
    EvFromDocuments chunks ∈ trace (upload_file env w upload).1.
Proof.
  intros Hbody.
  destruct (endswith (filename upload) (py ".pdf")) eqn:Hext;
    [|by rewrite upload_file_rejects in Hbody].
  split; [done|].
  pose proof (upload_file_keeps_file env w upload Hext) as Hkeep.
  revert Hbody Hkeep. unfold upload_file. rewrite Hext. cbn [negb].
  set (filepath := path_join UPLOAD_FOLDER (filename upload)).
  destruct (save_upload env w filepath (file upload)) as [w1 [e|]]; [done|].
  pose proof (process_upload_world env (close_upload w1) filepath)
    as (_ & Hclosed & _).
  destruct (process_upload env (close_upload w1) filepath)
    as [w2 [chunks|e]] eqn:Hprocess; [|done].
  apply process_upload_ok_inv in Hprocess as ([raw_text [_ Hchunks]] & Hstore & Hev).
  cbn [fst snd]. intros [= <-] Hkeep. cbn [body_filename total_chunks].
  split; [done|]. split; [by apply Hkeep|]. split; [done|].
  by exists raw_text, chunks.
Qed.

Lemma upload_file_ok_inv_witness :
  let out := upload_file (quiet_env [Some (py "hello")]) empty_world report_pdf in
  endswith (filename report_pdf) (py ".pdf") = true ∧
  body_filename {| message := py "File successfully uploaded and processed.";
                   body_filename := py "report.pdf";
                   total_chunks := 1 |} = filename report_pdf ∧
  fs out.1 !! path_join UPLOAD_FOLDER (filename report_pdf) = Some (file report_pdf) ∧
  upload_closed out.1 = true ∧
  ∃ raw_text chunks,
    chunk_text raw_text = Ok chunks ∧
    total_chunks {| message := py "File successfully uploaded and processed.";
                    body_filename := py "report.pdf";
                    total_chunks := 1 |} = Z.of_nat (length chunks) ∧
    from_documents (quiet_env [Some (py "hello")]) chunks = Ok () ∧
    EvFromDocuments chunks ∈ trace out.1.
Proof.
  apply (upload_file_ok_inv (quiet_env [Some (py "hello")]) empty_world report_pdf).
  vm_compute. reflexivity.
Defined.

(** X17: the file name is not confined to the upload folder. When it
    starts with a slash, [os.path.join] drops the folder and the upload
    is written at that absolute path. *)
Theorem upload_file_absolute_filename
    (env : Env) (w : World) (upload : UploadFile) :
  startswith (filename upload) (py "/") = true →
  endswith (filename upload) (py ".pdf") = true →
  open_wb env (filename upload) = None →
  copyfileobj_fault env (file upload) = None →
  path_join UPLOAD_FOLDER (filename upload) = filename upload ∧
  fs (upload_file env w upload).1 !! filename upload = Some (file upload).
Proof.
  intros Habs Hext Hopen Hcopy.
  assert (Hpath : path_join UPLOAD_FOLDER (filename upload) = filename upload)
    by (unfold path_join; by rewrite Habs).
  split; [done|].
  pose proof (upload_file_keeps_file env w upload Hext) as Hkeep.
  rewrite Hpath in Hkeep. apply Hkeep.
  by rewrite save_upload_ok.
Qed.

Lemma upload_file_absolute_filename_witness :
  path_join UPLOAD_FOLDER (filename absolute_pdf) = filename absolute_pdf ∧
  fs (upload_file (quiet_env []) empty_world absolute_pdf).1
    !! filename absolute_pdf = Some (file absolute_pdf).
Proof.
  apply (upload_file_absolute_filename (quiet_env []) empty_world absolute_pdf);
    reflexivity.
Defined.

Lemma page_texts_blank (pages : list (option text)) :
  Forall (λ p, Forall (λ c, py_isspace c = true) (default [] p)) pages →
  Forall (λ c, py_isspace c = true) (concat (map page_text pages)).
Proof.
  induction 1 as [|p pages Hp _ IH]; [done|].
  simpl. apply Forall_app. split; [|done].
  destruct p as [[|c t]|]; [done| |done].
  apply Forall_app. split; [done|]. by apply Forall_singleton.
Qed.

(** X18: a PDF whose pages hold nothing but whitespace (or no text at
    all) is ingested with success: the handler sends the empty batch to
    the vector store and returns [total_chunks = 0]. *)
Theorem upload_file_blank_pages (env : Env) (w : World) (upload : UploadFile)
    (pages : list (option text)) :
  let filepath := path_join UPLOAD_FOLDER (filename upload) in
  endswith (filename upload) (py ".pdf") = true →
  open_wb env filepath = None →
  copyfileobj_fault env (file upload) = None →
  pdf_pages env (file upload) = Ok (map Ok pages) →
  Forall (λ p, Forall (λ c, py_isspace c = true) (default [] p)) pages →
  from_documents env [] = Ok () →
  (upload_file env w upload).2
  = Return {| message := py "File successfully uploaded and processed.";
              body_filename := filename upload;
              total_chunks := 0 |} ∧
  EvFromDocuments [] ∈ trace (upload_file env w upload).1.
Proof.
  intros filepath Hext Hopen Hcopy Hpages Hblank Hstore.
  apply (upload_file_success env w upload pages []); try done.
  by apply chunk_text_of_blank, page_texts_blank.
Qed.

Lemma upload_file_blank_pages_witness :
  (upload_file (quiet_env [Some (py "   "); None; Some [NL; 9%N]])
     empty_world report_pdf).2
  = Return {| message := py "File successfully uploaded and processed.";
              body_filename := filename report_pdf;
              total_chunks := 0 |} ∧
  EvFromDocuments []
  ∈ trace (upload_file (quiet_env [Some (py "   "); None; Some [NL; 9%N]])
             empty_world report_pdf).1.
Proof.
  apply (upload_file_blank_pages (quiet_env [Some (py "   "); None; Some [NL; 9%N]])
           empty_world report_pdf [Some (py "   "); None; Some [NL; 9%N]]);
    try reflexivity.
  apply (bool_decide_unpack _). vm_compute. exact I.
Defined.

(** ** Chat: failures, the answer, and what the prompt holds *)

(** X19: when the retriever fails, the handler prints a
    [CRITICAL ERROR: ] line with the text of the exception and raises
    status 500 with the same text; the language model is not called. *)
Theorem chat_with_document_retriever_failure
    (env : Env) (w : World) (question : text) (e : exn) :
  retrieve env question = Raise e →
  (chat_with_document env w question).2 = HTTPException 500 (str_exn e) ∧
  trace (chat_with_document env w question).1
  = trace w ++ [EvRetrieve question; EvPrint (py "CRITICAL ERROR: " ++ str_exn e)].
Proof.
  intros Hretrieve. unfold chat_with_document, rag_chain.
  rewrite Hretrieve. cbn. split; [done|]. by rewrite <- app_assoc.
Qed.

Lemma chat_with_document_retriever_failure_witness :
  let env := service_env (Ok []) (Ok ())
               (Raise (Exception (py "index not found"))) (Ok []) in
  (chat_with_document env empty_world (py "What is the capital of France?")).2
  = HTTPException 500 (str_exn (Exception (py "index not found"))) ∧
  trace (chat_with_document env empty_world (py "What is the capital of France?")).1
  = trace empty_world ++
    [EvRetrieve (py "What is the capital of France?");
     EvPrint (py "CRITICAL ERROR: " ++ str_exn (Exception (py "index not found")))].
Proof.
  apply (chat_with_document_retriever_failure
           (service_env (Ok []) (Ok ())
              (Raise (Exception (py "index not found"))) (Ok []))
           empty_world (py "What is the capital of France?")
           (Exception (py "index not found"))).
  reflexivity.
Defined.

(** X20: every [HTTPException] the chat handler raises has status 500,
    and the last thing the handler did before raising was to print
    [CRITICAL ERROR: ] followed by the detail it raises with. *)
Theorem chat_with_document_failure_logged
    (env : Env) (w : World) (question : text) (status_code : Z) (detail : text) :
  (chat_with_document env w question).2 = HTTPException status_code detail →
  status_code = 500 ∧
  ∃ before,
    trace (chat_with_document env w question).1
    = before ++ [EvPrint (py "CRITICAL ERROR: " ++ detail)].
Proof.
  unfold chat_with_document.
  destruct (rag_chain env w question) as [w1 [answer|e]]; [done|].
  cbn. intros [= <- <-]. split; [done|]. by exists (trace w1).
Qed.

Lemma chat_with_document_failure_logged_witness :
  500 = 500 ∧
  ∃ before,
    trace (chat_with_document
             (service_env (Ok []) (Ok ()) (Ok paris_docs)
                (Raise (Exception (py "model overloaded"))))
             empty_world (py "What is the capital of France?")).1
    = before ++ [EvPrint (py "CRITICAL ERROR: " ++ py "model overloaded")].
Proof.
  apply (chat_with_document_failure_logged
           (service_env (Ok []) (Ok ()) (Ok paris_docs)
              (Raise (Exception (py "model overloaded"))))
           empty_world (py "What is the capital of France?")).
  vm_compute. reflexivity.
Defined.

(** X21: a returned answer is the model's completion, unchanged, for the
    prompt built from what the retriever found; the handler called the
    retriever once, then the model once, and printed nothing. *)
Theorem chat_with_document_answer_inv
    (env : Env) (w : World) (question answer : text) :
  (chat_with_document env w question).2 = Return answer →
  ∃ docs,
    retrieve env question = Ok docs ∧
    llm env (prompt_text (format_docs docs) question) = Ok answer ∧
    trace (chat_with_document env w question).1
    = trace w ++ [EvRetrieve question;
                  EvLLM (prompt_text (format_docs docs) question)].
Proof.
  unfold chat_with_document, rag_chain.
  destruct (retrieve env question) as [docs|e]; [|done].
  rewrite prompt_ok.
  destruct (llm env (prompt_text (format_docs docs) question)) as [a|e] eqn:Hllm;
    [|done].
  cbn. intros [= <-]. exists docs. split; [done|]. split; [done|].
  by rewrite <- app_assoc.
Qed.

Lemma chat_with_document_answer_inv_witness :
  let env := service_env (Ok []) (Ok ()) (Ok paris_docs) (Ok (py "Paris.")) in
  ∃ docs,
    retrieve env (py "What is the capital of France?") = Ok docs ∧
    llm env (prompt_text (format_docs docs) (py "What is the capital of France?"))
    = Ok (py "Paris.") ∧
    trace (chat_with_document env empty_world
             (py "What is the capital of France?")).1
    = trace empty_world ++
      [EvRetrieve (py "What is the capital of France?");
       EvLLM (prompt_text (format_docs docs) (py "What is the capital of France?"))].
Proof.
  apply (chat_with_document_answer_inv
           (service_env (Ok []) (Ok ()) (Ok paris_docs) (Ok (py "Paris.")))
           empty_world (py "What is the capital of France?") (py "Paris.")).
  vm_compute. reflexivity.
Defined.

Lemma join_substring (sep s : text) (parts : list text) :
  s ∈ parts → substring s (join sep parts).
Proof.
  induction parts as [|p parts IH]; intros Hin; [by apply elem_of_nil in Hin|].
  destruct parts as [|q parts].
  - apply list_elem_of_singleton in Hin as ->. apply StripFacts.substring_refl.
  - change (join sep (p :: q :: parts)) with (p ++ sep ++ join sep (q :: parts)).
    apply elem_of_cons in Hin as [->|Hin].
    + exists [], (sep ++ join sep (q :: parts)). done.
    + destruct (IH Hin) as (a & b & ->).
      exists (p ++ sep ++ a), b. by rewrite <- !app_assoc.
Qed.

Lemma prompt_text_context (context question : text) :
  substring context (prompt_text context question).
Proof.
  exists (py "Use the following pieces of retrieved context to answer the question. " ++ [NL] ++
          py "        If you don't know the answer, just say that you don't know. " ++ [NL] ++
          py "        Keep the answer concise and professional." ++ [NL] ++
          py "        " ++ [NL] ++
          py "        Context: "),
         ([NL] ++ py "        " ++ [NL] ++
          py "        Question: " ++ question ++ [NL] ++
          py "        " ++ [NL] ++
          py "        Answer:").
  unfold prompt_text. by rewrite <- !app_assoc.
Qed.

Lemma prompt_text_question (context question : text) :
  substring question (prompt_text context question).
Proof.
  exists (py "Use the following pieces of retrieved context to answer the question. " ++ [NL] ++
          py "        If you don't know the answer, just say that you don't know. " ++ [NL] ++
          py "        Keep the answer concise and professional." ++ [NL] ++
          py "        " ++ [NL] ++
          py "        Context: " ++ context ++ [NL] ++
          py "        " ++ [NL] ++
          py "        Question: "),
         ([NL] ++ py "        " ++ [NL] ++ py "        Answer:").
  unfold prompt_text. by rewrite <- !app_assoc.
Qed.

(** X23: every chunk the retriever returns appears word for word in the
    prompt the model is called with, and so does the question. *)
Theorem chat_prompt_holds_chunks
    (env : Env) (w : World) (question : text) (docs : list Document) (d : Document) :
  retrieve env question = Ok docs →
  d ∈ docs →
  ∃ p, EvLLM p ∈ trace (chat_with_document env w question).1 ∧
       substring (page_content d) p ∧
       substring question p.
Proof.
  intros Hretrieve Hd. exists (prompt_text (format_docs docs) question).
  split; [|split].
  - unfold chat_with_document, rag_chain. rewrite Hretrieve, prompt_ok.
    destruct (llm env _); cbn [fst emit trace];
      rewrite !elem_of_app, !list_elem_of_singleton; auto.
  - eapply StripFacts.substring_trans; [|apply prompt_text_context].
    unfold format_docs. apply join_substring. by apply list_elem_of_fmap_2.
  - apply prompt_text_question.
Qed.

Lemma chat_prompt_holds_chunks_witness :
  let env := service_env (Ok []) (Ok ()) (Ok paris_docs) (Ok (py "Paris.")) in
  ∃ p, EvLLM p ∈ trace (chat_with_document env empty_world
                          (py "What is the capital of France?")).1 ∧
       substring (page_content (doc (py "Paris is on the Seine."))) p ∧
       substring (py "What is the capital of France?") p.
Proof.
  apply (chat_prompt_holds_chunks
           (service_env (Ok []) (Ok ()) (Ok paris_docs) (Ok (py "Paris.")))
           empty_world (py "What is the capital of France?") paris_docs
           (doc (py "Paris is on the Seine."))).
  - reflexivity.
  - unfold paris_docs. apply elem_of_cons. right. apply elem_of_cons. by left.
Defined.

(** ** The chunker: nothing but whitespace is lost *)

Module SplitterCover.
Import Splitter SplitterFacts SplitterWindows StripFacts SplitterChunks.

Lemma covers_at_shift (a s b m : text) (i j : nat) :
  covers_at s j m → i = (length a + j)%nat → covers_at (a ++ s ++ b) i m.
Proof.
  intros (a' & b' & -> & Hj) ->. exists (a ++ a'), (b' ++ b).
  split; [by rewrite <- !app_assoc|]. rewrite length_app. lia.
Qed.

Lemma covers_at_self (s : text) (j : nat) (x : N) :
  s !! j = Some x → covers_at s j s.
Proof.
  intros Hj. apply lookup_lt_Some in Hj. exists [], [].
  split; [by rewrite app_nil_r|]. simpl. lia.
Qed.

Lemma lookup_app3 (a s b : text) (j : nat) (x : N) :
  (a ++ s ++ b) !! j = Some x →
  ((j < length a)%nat ∧ a !! j = Some x) ∨
  ((length a ≤ j < length a + length s)%nat ∧ s !! (j - length a)%nat = Some x) ∨
  ((length a + length s ≤ j)%nat ∧ b !! (j - length a - length s)%nat = Some x).
Proof.
  intros Hj.
  destruct (decide (j < length a)%nat) as [Ha|Ha].
  - left. split; [done|]. by rewrite lookup_app_l in Hj.
  - right. rewrite lookup_app_r in Hj by lia.
    destruct (decide (j - length a < length s)%nat) as [Hs|Hs].
    + left. split; [lia|]. by rewrite lookup_app_l in Hj.
    + right. split; [lia|]. rewrite lookup_app_r in Hj by lia. done.
Qed.

(** A character that is not whitespace survives stripping, in place. *)
Lemma strip_covers_at (s : text) (j : nat) (x : N) :
  s !! j = Some x → py_isspace x = false → covers_at s j (strip s).
Proof.
  intros Hj Hx.
  destruct (lstrip_blank_prefix s) as (wa & Ha & Hblank_a).
  destruct (rstrip_blank_suffix (lstrip s)) as (wb & Hb & Hblank_b).
  fold (strip s) in Hb. exists wa, wb.
  assert (Hs : s = wa ++ strip s ++ wb) by (by rewrite <- Hb).
  split; [done|]. rewrite Hs in Hj.
  apply lookup_app3 in Hj as [[_ Hj]|[[Hj _]|[_ Hj]]]; [|done|].
  - apply list_elem_of_lookup_2 in Hj.
    apply (proj1 (Forall_forall _ _) Hblank_a) in Hj. congruence.
  - apply list_elem_of_lookup_2 in Hj.
    apply (proj1 (Forall_forall _ _) Hblank_b) in Hj. congruence.
Qed.

Lemma _join_docs_at (cur : list text) (j : nat) (x : N) :
  concat cur !! j = Some x → py_isspace x = false →
  ∃ m, _join_docs cur [] = Some m ∧ covers_at (concat cur) j m.
Proof.
  intros Hj Hx. pose proof (strip_covers_at _ _ _ Hj Hx) as Hcov.
  unfold _join_docs. rewrite join_nil_concat.
  destruct (strip (concat cur)) as [|y m] eqn:Hs; [|by exists (y :: m)].
  destruct Hcov as (a & b & _ & Hlen). simpl in Hlen. lia.
Qed.

Section Cover.
Variable cfg : config.

(** Every place of the pending text that holds a character other than
    whitespace is inside a chunk [_merge_splits] emits. *)
Lemma merge_loop_covers_at (splits docs cur merged : list text) :
  merge_loop cfg [] splits docs cur (len (concat cur)) = Ok merged →
  (∃ new, merged = docs ++ new) ∧
  ∀ j x, (concat cur ++ concat splits) !! j = Some x → py_isspace x = false →
         ∃ m, m ∈ merged ∧ covers_at (concat cur ++ concat splits) j m.
Proof.
  revert docs cur merged.
  induction splits as [|d splits IH]; intros docs cur merged.
  - simpl. intros [= <-]. split; [by eexists|].
    intros j x Hj Hx. rewrite app_nil_r in *.
    destruct (_join_docs_at cur j x Hj Hx) as (m & -> & Hcov).
    exists m. split; [|done]. apply elem_of_app. right. by left.
  - rewrite merge_loop_cons.
    destruct ((_ >? _) && _) eqn:Hover.
    + destruct (pop_front cfg [] cur (len (concat cur)) (len d))
        as [[cur' total']|e] eqn:Hpop; [|done].
      apply pop_front_post in Hpop as (-> & [pre' ->] & _).
      rewrite <- concat_snoc. intros Hrun.
      apply IH in Hrun as ([new ->] & Hcover).
      split; [exists (option_list (_join_docs (pre' ++ cur') []) ++ new);
              by rewrite <- app_assoc|].
      intros j x Hj Hx.
      assert (Htext : concat (pre' ++ cur') ++ concat (d :: splits)
                      = concat pre' ++ (concat (cur' ++ [d]) ++ concat splits) ++ []).
      { rewrite !concat_app. simpl. by rewrite !app_nil_r, <- !app_assoc. }
      destruct (decide (j < length (concat (pre' ++ cur')))%nat) as [Hin|Hout].
      * rewrite lookup_app_l in Hj by done.
        destruct (_join_docs_at _ j x Hj Hx) as (m & Hm & Hcov).
        exists m. split.
        -- rewrite Hm. rewrite !elem_of_app. left. right. by left.
        -- rewrite <- (app_nil_l (concat (pre' ++ cur') ++ _)).
           by apply (covers_at_shift [] _ _ _ j j).
      * rewrite Htext in Hj |- *.
        rewrite concat_app, length_app in Hout.
        apply lookup_app3 in Hj as [[Hlt _]|[[Hrange Hj]|[_ Hj]]];
          [lia| |by rewrite lookup_nil in Hj].
        destruct (Hcover _ _ Hj Hx) as (m & Hm & Hcov).
        exists m. split; [done|].
        apply (covers_at_shift _ _ _ _ _ _ Hcov). lia.
    + rewrite <- concat_snoc. intros Hrun.
      apply IH in Hrun as (Hnew & Hcover). split; [done|].
      intros j x Hj Hx.
      assert (Htext : concat cur ++ concat (d :: splits)
                      = concat (cur ++ [d]) ++ concat splits).
      { rewrite concat_app. simpl. by rewrite app_nil_r, <- app_assoc. }
      rewrite Htext in Hj |- *. by apply (Hcover j x).
Qed.

Lemma flush_covers_at (final_chunks _good_splits out : list text) :
  flush cfg final_chunks _good_splits = Ok out →
  (∃ new, out = final_chunks ++ new) ∧
  ∀ j x, concat _good_splits !! j = Some x → py_isspace x = false →
         ∃ m, m ∈ out ∧ covers_at (concat _good_splits) j m.
Proof.
  unfold flush. destruct _good_splits as [|g good].
  - intros [= <-]. split; [exists []; by rewrite app_nil_r|].
    intros j x Hj. simpl in Hj. by rewrite lookup_nil in Hj.
  - unfold _merge_splits.
    destruct (merge_loop cfg [] (g :: good) [] [] 0) as [merged|e] eqn:Hrun; [|done].
    simpl. intros [= <-]. split; [by eexists|].
    change 0 with (len (concat [])) in Hrun.
    apply merge_loop_covers_at in Hrun as (_ & Hcover).
    intros j x Hj Hx. destruct (Hcover j x Hj Hx) as (m & Hm & Hcov).
    exists m. split; [|done]. apply elem_of_app. by right.
Qed.

Lemma split_loop_covers_at (recur : option (text → result (list text)))
    (splits final_chunks _good_splits out : list text) :
  (∀ f, recur = Some f →
        ∀ s chunks, f s = Ok chunks →
        ∀ j x, s !! j = Some x → py_isspace x = false →
               ∃ m, m ∈ chunks ∧ covers_at s j m) →
  split_loop cfg recur splits final_chunks _good_splits = Ok out →
  (∃ new, out = final_chunks ++ new) ∧
  ∀ j x, (concat _good_splits ++ concat splits) !! j = Some x →
         py_isspace x = false →
         ∃ m, m ∈ out ∧ covers_at (concat _good_splits ++ concat splits) j m.
Proof.
  intros Hrecur. revert final_chunks _good_splits out.
  induction splits as [|s splits IH]; intros fc good out; simpl.
  - rewrite app_nil_r. apply flush_covers_at.
  - destruct (len s <? chunk_size cfg).
    + intros Hrun. apply IH in Hrun as (Hnew & Hcover). split; [done|].
      intros j x Hj Hx.
      assert (Htext : concat good ++ s ++ concat splits
                      = concat (good ++ [s]) ++ concat splits).
      { rewrite concat_app. simpl. by rewrite app_nil_r, <- app_assoc. }
      rewrite Htext in Hj |- *. by apply (Hcover j x).
    + destruct (flush cfg fc good) as [fc'|e] eqn:Hflush; [|done]. simpl.
      apply flush_covers_at in Hflush as ([new1 ->] & Hcover1).
      assert (Hstep : ∀ other,
                 (∀ j x, s !! j = Some x → py_isspace x = false →
                         ∃ m, m ∈ other ∧ covers_at s j m) →
                 split_loop cfg recur splits ((fc ++ new1) ++ other) [] = Ok out →
                 (∃ new, out = fc ++ new) ∧
                 ∀ j x, (concat good ++ s ++ concat splits) !! j = Some x →
                        py_isspace x = false →
                        ∃ m, m ∈ out ∧ covers_at (concat good ++ s ++ concat splits) j m).
      { intros other Hother Hrun.
        apply IH in Hrun as ([new2 ->] & Hcover2).
        split; [exists (new1 ++ other ++ new2); by rewrite <- !app_assoc|].
        intros j x Hj Hx.
        apply lookup_app3 in Hj as [[Hlt Hj]|[[Hrange Hj]|[Hge Hj]]].
        - destruct (Hcover1 _ _ Hj Hx) as (m & Hm & Hcov).
          exists m. split; [do 2 (apply elem_of_app; left); done|].
          rewrite <- (app_nil_l (concat good ++ _)).
          by apply (covers_at_shift [] _ _ _ j j).
        - destruct (Hother _ _ Hj Hx) as (m & Hm & Hcov).
          exists m. split; [apply elem_of_app; left; apply elem_of_app; by right|].
          apply (covers_at_shift _ _ _ _ _ _ Hcov). lia.
        - simpl in Hcover2.
          destruct (Hcover2 _ _ Hj Hx) as (m & Hm & Hcov).
          exists m. split; [done|].
          rewrite (app_assoc (concat good) s), <- (app_nil_r (concat splits)).
          apply (covers_at_shift _ _ _ _ _ _ Hcov).
          rewrite length_app. lia. }
      destruct recur as [f|].
      * destruct (f s) as [other|e] eqn:Hf; [|done]. simpl.
        apply Hstep. by apply (Hrecur f).
      * apply Hstep. intros j x Hj Hx. exists s.
        split; [by apply list_elem_of_singleton|by apply (covers_at_self s j x)].
Qed.

Lemma _split_text_covers_at (separators : list text) (t : text) (out : list text) :
  _split_text cfg separators t = Ok out →
  ∀ j x, t !! j = Some x → py_isspace x = false →
         ∃ m, m ∈ out ∧ covers_at t j m.
Proof.
  revert t out.
  induction separators as [|_s rest IH]; intros t out; [done|].
  assert (Hloop : ∀ recur separator,
             (∀ f, recur = Some f →
                   ∀ s chunks, f s = Ok chunks →
                   ∀ j x, s !! j = Some x → py_isspace x = false →
                          ∃ m, m ∈ chunks ∧ covers_at s j m) →
             split_loop cfg recur (_split_text_with_regex t separator) [] [] = Ok out →
             ∀ j x, t !! j = Some x → py_isspace x = false →
                    ∃ m, m ∈ out ∧ covers_at t j m).
  { intros recur separator Hrecur Hrun.
    apply (split_loop_covers_at _ _ _ _ _ Hrecur) in Hrun as (_ & Hcover).
    simpl in Hcover. by rewrite regex_concat in Hcover. }
  assert (Hrest : ∀ f,
             match rest with [] => None | _ :: _ => Some (_split_text cfg rest) end
             = Some f →
             ∀ s chunks, f s = Ok chunks →
             ∀ j x, s !! j = Some x → py_isspace x = false →
                    ∃ m, m ∈ chunks ∧ covers_at s j m).
  { intros f Hf s chunks Hrun. destruct rest as [|r rest']; [done|].
    injection Hf as <-. by apply IH. }
  destruct _s as [|y _s].
  - rewrite _split_text_empty. by apply Hloop.
  - destruct (contains t (y :: _s)) eqn:Hfound.
    + rewrite _split_text_found by done. by apply Hloop.
    + destruct rest as [|r rest].
      * cbn [_split_text]. rewrite Hfound. by apply Hloop.
      * rewrite _split_text_skip by done. apply IH.
Qed.
End Cover.

End SplitterCover.

Lemma strip_nonblank (s : text) (c : N) :
  py_isspace c = false → c ∈ s → strip s ≠ [].
Proof.
  intros Hc Hin Hs. apply (StripFacts.strip_keeps _ _ Hc) in Hin.
  rewrite Hs in Hin. by apply elem_of_nil in Hin.
Qed.

(** X24: the chunker loses nothing but whitespace: every place of the
    text that holds a character other than whitespace lies inside a chunk,
    at a place where that chunk occurs in the text. *)
Theorem chunk_text_covers (raw_text : text) (i : nat) (c : N) :
  raw_text !! i = Some c → py_isspace c = false →
  ∃ chunks d, chunk_text raw_text = Ok chunks ∧ d ∈ chunks ∧
              covers_at raw_text i (page_content d).
Proof.
  intros Hi Hc. unfold chunk_text, create_documents, Splitter.split_text.
  destruct (SplitterFacts._split_text_ok splitter_config ltac:(done)
              (Splitter.separators splitter_config) raw_text ltac:(done))
    as [out Hsplit].
  rewrite Hsplit. cbn [mbind result_bind]. rewrite app_nil_r.
  destruct (SplitterCover._split_text_covers_at _ _ _ _ Hsplit i c Hi Hc)
    as (m & Hm & Hcov).
  exists (map doc out), (doc m). split; [done|]. split; [|done].
  by apply (list_elem_of_fmap_2 doc).
Qed.

Lemma chunk_text_covers_witness :
  ∃ chunks d,
    chunk_text (py "  The capital of France" ++ [NL; NL] ++ py "is Paris. ")
    = Ok chunks ∧ d ∈ chunks ∧
    covers_at (py "  The capital of France" ++ [NL; NL] ++ py "is Paris. ") 28
      (page_content d).
Proof.
  apply (chunk_text_covers
           (py "  The capital of France" ++ [NL; NL] ++ py "is Paris. ") 28 80%N);
    reflexivity.
Defined.

(** X25: a document whose extracted text has fewer than 1000 characters
    and holds at least one character that is not whitespace is ingested
    as exactly one chunk: the extracted text without the whitespace at
    its ends. *)
Theorem upload_file_short_text (env : Env) (w : World) (upload : UploadFile)
    (pages : list (option text)) (c : N) :
  let filepath := path_join UPLOAD_FOLDER (filename upload) in
  let raw_text := concat (map page_text pages) in
  endswith (filename upload) (py ".pdf") = true →
  open_wb env filepath = None →
  copyfileobj_fault env (file upload) = None →
  pdf_pages env (file upload) = Ok (map Ok pages) →
  len raw_text < 1000 →
  py_isspace c = false → c ∈ raw_text →
  from_documents env [doc (strip raw_text)] = Ok () →
  (upload_file env w upload).2
  = Return {| message := py "File successfully uploaded and processed.";
              body_filename := filename upload;
              total_chunks := 1 |} ∧
  EvFromDocuments [doc (strip raw_text)] ∈ trace (upload_file env w upload).1.
Proof.
  intros filepath raw_text Hext Hopen Hcopy Hpages Hshort Hc Hin Hstore.
  apply (upload_file_success env w upload pages [doc (strip raw_text)]);
    try done.
  fold raw_text. rewrite chunk_text_short_eq by done.
  rewrite decide_False; [done|]. by apply (strip_nonblank _ c).
Qed.

Lemma upload_file_short_text_witness :
  let env := quiet_env [Some (py "The capital of France is Paris.")] in
  let raw_text := concat (map page_text [Some (py "The capital of France is Paris.")]) in
  (upload_file env empty_world report_pdf).2
  = Return {| message := py "File successfully uploaded and processed.";
              body_filename := filename report_pdf;
              total_chunks := 1 |} ∧
  EvFromDocuments [doc (strip raw_text)]
  ∈ trace (upload_file env empty_world report_pdf).1.
Proof.
  apply (upload_file_short_text
           (quiet_env [Some (py "The capital of France is Paris.")])
           empty_world report_pdf
           [Some (py "The capital of France is Paris.")] 80%N);
    try reflexivity.
  apply (bool_decide_unpack _). vm_compute. exact I.
Defined.
